(** * Localization engine of YAMDBF: [src/localization/Lang.ts]

    A shallow embedding of the [Lang] singleton: the language store, the
    loaders that merge resource files into it, the accessors for command and
    group help text, and the template resolver [Lang.res] with its token
    substitution, embedded script blocks and clean-up passes.

    Conventions of the embedding.
    - A JavaScript string is a [string]; a character stands for one code unit
      below 256.
    - A JavaScript object used as a dictionary is a [gmap] over its own
      properties; where the source indexes an object literal with a name
      that comes from a caller or from a file name ([Lang.langs[lang]], the
      grouping of the language files), a name that the literal inherits
      from [Object.prototype] is found as well, see [inherited]. Where the
      iteration order of [Object.keys] matters it is an association list in
      that order.
    - An exception is a value of [exn]; a function that can throw returns
      [result], or, where a throw comes after the state has been changed
      ([loadLocalizationsFrom] and its callers), the state it leaves
      together with the exception it ends with, if any.
    - The JavaScript engine that compiles and runs an embedded script
      ([new Function(...)] and the call of the function it returns) is a
      parameter of the development, and so is [new RegExp(...)] on a
      pattern that is built from the name of a token and lies outside the
      fragment of [RegExp.regex].
    - The regular expressions of the source are terms of [RegExp.regex]
      interpreted by a backtracking matcher with the priorities of
      ECMAScript (leftmost match, first alternative first, greedy
      quantifiers). *)

From Stdlib Require Import Ascii.
From stdpp Require Import gmap strings list fin_maps sorting.

Set Default Proof Using "Type".

(** ** Characters *)

Definition TAB : ascii := "009"%char.
Definition LF : ascii := "010"%char.
Definition CR : ascii := "013"%char.
Definition SP : ascii := " "%char.
Definition BACKSLASH : ascii := "\"%char.

(** The one-character string holding a line feed. *)
Definition nl : string := String LF "".

(** Every character of the text is in the set. *)
Fixpoint all_chars (p : ascii → bool) (s : string) : bool :=
  match s with
  | "" => true
  | String c s' => p c && all_chars p s'
  end.

(** The character occurs in the text. *)
Fixpoint has_char (c : ascii) (s : string) : bool :=
  match s with
  | "" => false
  | String c' s' => bool_decide (c' = c) || has_char c s'
  end.

(** ** Object literals

    The names that an object literal [{}] inherits from [Object.prototype].
    Reading one of them from an object that has no property of its own under
    that name gives a function (for [__proto__], the prototype itself), not
    [undefined]. *)
Definition Object_prototype : list string :=
  ["constructor"; "__defineGetter__"; "__defineSetter__"; "hasOwnProperty";
   "__lookupGetter__"; "__lookupSetter__"; "isPrototypeOf";
   "propertyIsEnumerable"; "toString"; "valueOf"; "__proto__";
   "toLocaleString"].

Definition inherited (name : string) : bool :=
  bool_decide (name ∈ Object_prototype).

(** ** Regular expressions *)

Module RegExp.

(** The fragment of ECMAScript patterns that [Lang.ts] uses. A quantifier
    only ever applies to a one-character atom there, so [Star] takes the
    character set of that atom. [Grp i r] is the [i]-th capturing group. *)
Inductive regex : Type :=
| Eps
| Chr (c : ascii)
| Cls (p : ascii → bool)
| Bol
| Eol
| Seq (r1 r2 : regex)
| Alt (r1 r2 : regex)
| Star (p : ascii → bool)
| Grp (i : nat) (r : regex).

(** [X+] is [XX*], [r?] is [(?:r|)], a word is the sequence of its letters. *)
Definition Plus (p : ascii → bool) : regex := Seq (Cls p) (Star p).
Definition Opt (r : regex) : regex := Alt r Eps.
Fixpoint Lit (s : string) : regex :=
  match s with
  | "" => Eps
  | String c s' => Seq (Chr c) (Lit s')
  end.
Definition Cat (rs : list regex) : regex := foldr Seq Eps rs.

Definition is_chr (c : ascii) : ascii → bool := λ x, bool_decide (x = c).

(** Character sets of the source: [[a-zA-Z]], [[\s\S]], [[\t ]], [\s],
    [[^\/\.]], [[^\/]] and [.]. *)
Definition alpha (x : ascii) : bool :=
  let n := nat_of_ascii x in
  ((65 <=? n) && (n <=? 90)) || ((97 <=? n) && (n <=? 122)).
Definition any (x : ascii) : bool := true.
Definition blank (x : ascii) : bool := is_chr TAB x || is_chr SP x.
Definition space (x : ascii) : bool :=
  let n := nat_of_ascii x in
  ((9 <=? n) && (n <=? 13)) || (n =? 32) || (n =? 160).
Definition line_terminator (x : ascii) : bool := is_chr LF x || is_chr CR x.
Definition not_slash_dot (x : ascii) : bool :=
  negb (is_chr "/"%char x || is_chr "."%char x).
Definition not_slash (x : ascii) : bool := negb (is_chr "/"%char x).
Definition dot (x : ascii) : bool := negb (line_terminator x).

(** The matcher's position: the character before it, the text after it and
    the groups captured so far. *)
Record cursor := Cursor {
  prev : option ascii;
  rest : string;
  caps : gmap nat string
}.

(** The text between two positions of one string, the second being a suffix
    of the first. *)
Definition consumed (s s' : string) : string :=
  String.substring 0 (String.length s - String.length s') s.

Definition at_bol (m : bool) (cur : cursor) : bool :=
  match prev cur with
  | None => true
  | Some c => m && line_terminator c
  end.

Definition at_eol (m : bool) (cur : cursor) : bool :=
  match rest cur with
  | "" => true
  | String c _ => m && line_terminator c
  end.

Section Matcher.
Context {A : Type}.

(** Greedy repetition: take one more character when possible, and fall
    back to the continuation at the current position when the longer
    attempt fails. *)
Fixpoint star (p : ascii → bool) (cs : gmap nat string)
    (k : cursor → option A) (pv : option ascii) (s : string) : option A :=
  match s with
  | String c s' =>
      if p c then
        match star p cs k (Some c) s' with
        | Some a => Some a
        | None => k (Cursor pv s cs)
        end
      else k (Cursor pv s cs)
  | "" => k (Cursor pv s cs)
  end.

(** [run m r cur k]: match [r] at [cur] and then [k]; [m] is the
    multiline flag. *)
Fixpoint run (m : bool) (r : regex) (cur : cursor)
    (k : cursor → option A) : option A :=
  match r with
  | Eps => k cur
  | Chr c =>
      match rest cur with
      | String c' s' =>
          if bool_decide (c' = c) then k (Cursor (Some c') s' (caps cur))
          else None
      | "" => None
      end
  | Cls p =>
      match rest cur with
      | String c' s' =>
          if p c' then k (Cursor (Some c') s' (caps cur)) else None
      | "" => None
      end
  | Bol => if at_bol m cur then k cur else None
  | Eol => if at_eol m cur then k cur else None
  | Seq r1 r2 => run m r1 cur (λ cur', run m r2 cur' k)
  | Alt r1 r2 =>
      match run m r1 cur k with
      | Some a => Some a
      | None => run m r2 cur k
      end
  | Star p => star p (caps cur) k (prev cur) (rest cur)
  | Grp i r =>
      run m r cur (λ cur',
        k (Cursor (prev cur') (rest cur')
             (<[i := consumed (rest cur) (rest cur')]> (caps cur'))))
  end.
End Matcher.

(** A match: its text and its captured groups. *)
Record found := Found { text : string; groups : gmap nat string }.

(** The match that starts exactly at the given position, if any. *)
Definition here (m : bool) (r : regex) (pv : option ascii) (s : string)
    : option found :=
  run m r (Cursor pv s ∅) (λ cur, Some (Found (consumed s (rest cur)) (caps cur))).

(** [RegExp.prototype.exec] from index 0 and [String.prototype.match] with a
    pattern that has no [g] flag: the leftmost match. *)
Fixpoint exec_from (m : bool) (r : regex) (pv : option ascii) (s : string)
    : option found :=
  match here m r pv s with
  | Some f => Some f
  | None =>
      match s with
      | String c s' => exec_from m r (Some c) s'
      | "" => None
      end
  end.
Definition exec (m : bool) (r : regex) (s : string) : option found :=
  exec_from m r None s.

(** [RegExp.prototype.test] on a pattern whose [lastIndex] is 0. *)
Definition test (m : bool) (r : regex) (s : string) : bool :=
  bool_decide (is_Some (exec m r s)).

(** [String.prototype.match] with a [g] pattern: the texts of all matches,
    left to right, each search resuming where the previous match ended (one
    character further after an empty match). [skip] counts the characters
    still covered by the last match. *)
Fixpoint match_all_from (m : bool) (r : regex) (pv : option ascii)
    (skip : nat) (s : string) : list string :=
  match skip with
  | S n =>
      match s with
      | String c s' => match_all_from m r (Some c) n s'
      | "" => []
      end
  | 0 =>
      match here m r pv s with
      | Some f =>
          text f ::
            match s with
            | String c s' =>
                match_all_from m r (Some c) (pred (String.length (text f))) s'
            | "" => []
            end
      | None =>
          match s with
          | String c s' => match_all_from m r (Some c) 0 s'
          | "" => []
          end
      end
  end.
Definition match_all (m : bool) (r : regex) (s : string) : list string :=
  match_all_from m r None 0 s.

(** [String.prototype.replace] with a [g] pattern and a replacement computed
    from the matched text. *)
Fixpoint replace_all_from (m : bool) (r : regex) (f : string → string)
    (pv : option ascii) (skip : nat) (s : string) : string :=
  match skip with
  | S n =>
      match s with
      | String c s' => replace_all_from m r f (Some c) n s'
      | "" => ""
      end
  | 0 =>
      match here m r pv s with
      | Some fd =>
          f (text fd) +:+
            match s with
            | String c s' =>
                match String.length (text fd) with
                | 0 => String c (replace_all_from m r f (Some c) 0 s')
                | S n => replace_all_from m r f (Some c) n s'
                end
            | "" => ""
            end
      | None =>
          match s with
          | String c s' => String c (replace_all_from m r f (Some c) 0 s')
          | "" => ""
          end
      end
  end.
Definition replace_all (m : bool) (r : regex) (f : string → string)
    (s : string) : string :=
  replace_all_from m r f None 0 s.

(** [String.prototype.replace] with a pattern that has no [g] flag: only the
    leftmost match is replaced. *)
Fixpoint replace_first_from (m : bool) (r : regex) (f : string → string)
    (pv : option ascii) (s : string) : string :=
  match here m r pv s with
  | Some fd =>
      f (text fd) +:+
        String.substring (String.length (text fd))
          (String.length s - String.length (text fd)) s
  | None =>
      match s with
      | String c s' => String c (replace_first_from m r f (Some c) s')
      | "" => ""
      end
  end.
Definition replace_first (m : bool) (r : regex) (f : string → string)
    (s : string) : string :=
  replace_first_from m r f None s.

(** [String.prototype.replace] with a string pattern: the first occurrence
    of that exact text is replaced. *)
Definition replace_text (pat : string) (f : string → string) (s : string)
    : string :=
  replace_first false (Lit pat) f s.

End RegExp.

Import RegExp.

(** ** Values, exceptions and results *)

(** The values that reach the resolver from a data bag or from a script:
    [undefined] or a string. A value of another type behaves in this code as
    the string it converts to (it is never [=== '']). *)
Inductive jsval : Type :=
| undefined
| str (s : string).

Definition ToString (v : jsval) : string :=
  match v with
  | undefined => "undefined"
  | str s => s
  end.

(** [v === ''] *)
Definition is_empty_string (v : jsval) : bool :=
  match v with
  | str "" => true
  | _ => false
  end.

(** [v === undefined] *)
Definition is_undefined (v : jsval) : bool :=
  match v with
  | undefined => true
  | str _ => false
  end.

(** [a || b] on values that are strings or [undefined]. *)
Definition or_else (a b : option string) : option string :=
  match a with
  | Some "" | None => b
  | Some _ => a
  end.

Inductive exn : Type :=
| Error (message : string)
| TypeError (message : string)
| SyntaxError (message : string).

Inductive result (A : Type) : Type :=
| Ok (a : A)
| Throw (e : exn).
Arguments Ok {A} a.
Arguments Throw {A} e.

#[global] Instance result_ret : MRet result := λ A a, Ok a.
#[global] Instance result_bind : MBind result := λ A B f r,
  match r with
  | Ok a => f a
  | Throw e => Throw e
  end.

(** ** The data model *)

(** [TemplateData]: the own properties of the data bag in the order of
    [Object.keys]. *)
Definition TemplateData : Type := list (string * jsval).

(** [data[template]] *)
Fixpoint get (data : TemplateData) (template : string) : jsval :=
  match data with
  | [] => undefined
  | (k, v) :: data' => if bool_decide (k = template) then v else get data' template
  end.

Record LocalizedCommandInfo := {
  desc : option string;
  info : option string;
  usage : option string
}.

(** What [Lang.ts] reads of a [Command]. *)
Record Command := {
  cmd_name : string;
  cmd_desc : string;
  cmd_info : string;
  cmd_usage : string
}.

(** What [postLoad] reads of the [Client]: the names of the disabled base
    commands, and the [disabled] flag of the [setlang] command when that
    command is registered. *)
Record Client := {
  disableBase : list string;
  setlang_disabled : option bool
}.

(** Modelled from the spec: the class [Language] ([./Language]), whose source
    is not among the files: the name of the language and its Language
    Table, the mapping from the keys it holds to their templates. *)
Record Language := {
  name : string;
  strings : gmap string string
}.

(** The fields of the [Lang] singleton. *)
Record Lang := {
  _client : Client;
  _commandInfo : gmap string (gmap string LocalizedCommandInfo);
  _groupInfo : gmap string (gmap string string);
  _langs : gmap string Language;
  _meta : gmap string (gmap string jsval)
}.

(** [Lang._instance] is the whole state: [None] before [createInstance]. *)
Definition State : Type := option Lang.

Definition not_created_error : exn :=
  Error "Lang singleton instance has not been created".

Definition not_created {A} : result A := Throw not_created_error.

(** The guard [if (!Lang._instance) throw ...] that opens every static
    method. *)
Definition instance (st : State) : result Lang :=
  match st with
  | Some i => Ok i
  | None => not_created
  end.

(** ** Construction *)

(** [private constructor(client)] *)
Definition constructor (st : State) (client : Client) : result Lang :=
  match st with
  | Some _ =>
      Throw (Error
        "Cannot create multiple instances of Lang singleton. Use Lang.createInstance() instead")
  | None =>
      Ok {| _client := client; _commandInfo := ∅; _groupInfo := ∅;
            _langs := ∅; _meta := ∅ |}
  end.

(** [Lang.createInstance(client)] *)
Definition createInstance (st : State) (client : Client) : result State :=
  match st with
  | None => i ← constructor st client; Ok (Some i)
  | Some _ => Ok st
  end.

(** [Lang.langs] *)
Definition langs (st : State) : result (gmap string Language) :=
  i ← instance st; Ok (_langs i).

(** ** The template resolver *)

Definition sp : ascii → bool := is_chr SP.

(** [/^{{ *[a-zA-Z]+ *\?}}[\t ]*\n|{{ *[a-zA-Z]+ *\?}}/gm] *)
Definition maybeTemplates : regex :=
  Alt (Cat [Bol; Lit "{{"; Star sp; Plus alpha; Star sp; Chr "?"; Lit "}}";
            Star blank; Chr LF])
      (Cat [Lit "{{"; Star sp; Plus alpha; Star sp; Chr "?"; Lit "}}"]).

(** [/^{{!([\s\S]+)!}}[\t ]*\n|{{!([\s\S]+)!}}/m] *)
Definition scriptTemplate : regex :=
  Alt (Cat [Bol; Lit "{{!"; Grp 1 (Plus any); Lit "!}}"; Star blank; Chr LF])
      (Cat [Lit "{{!"; Grp 2 (Plus any); Lit "!}}"]).

(** [/^{{!([\s\S]+)!}}[\t ]*\n/] *)
Definition ownLineScript : regex :=
  Cat [Bol; Lit "{{!"; Grp 1 (Plus any); Lit "!}}"; Star blank; Chr LF].

(** The syntax characters of an ECMAScript pattern; every other character
    of a pattern stands for itself. *)
Definition syntax_character (c : ascii) : bool :=
  bool_decide (c ∈ ["^"; "$"; "\"; "."; "*"; "+"; "?"; "("; ")"; "["; "]";
                    "{"; "}"; "|"]%char).

(** A name of a token without a syntax character: spliced into a pattern, it
    stands for its own text. *)
Definition literal_name (template : string) : bool :=
  all_chars (λ c, negb (syntax_character c)) template.

(** What [{{ *${template} *\\?}}] and [{{ *${template} *\\??}}] are when the
    name is a literal one. *)
Definition maybe_pattern (template : string) : regex :=
  Cat [Lit "{{"; Star sp; Lit template; Star sp; Chr "?"; Lit "}}"].
Definition any_pattern (template : string) : regex :=
  Cat [Lit "{{"; Star sp; Lit template; Star sp; Opt (Chr "?"); Lit "}}"].

(** A pattern compiled with the [g] flag, as [res] uses it: [test] on a
    pattern whose [lastIndex] is 0, and [String.prototype.replace] with a
    function that computes the replacement. *)
Record RegExpObject := {
  regexp_test : string → bool;
  regexp_replace : (string → string) → string → string
}.

Definition compiled (r : regex) : RegExpObject :=
  {| regexp_test := test false r; regexp_replace := replace_all false r |}.

(** The last two replacements (lines 590-592): optional markers are removed,
    then the two characters [\n] become a line feed. *)
Definition finish (loadedString : string) : string :=
  replace_all false (Lit (String BACKSLASH "n")) (λ _, nl)
    (replace_all true maybeTemplates (λ _, "") loadedString).

(** What a script is handed as [res]: the loader of line 560 closes over the
    language and over the data bag that is its default argument. *)
Record ResourceLoader := {
  loader_lang : string;
  loader_args : TemplateData
}.

(** How a call of a compiled script ends: with a value (or none), or with a
    thrown value, given by its string conversion. *)
Inductive completion : Type :=
| Return (v : jsval)
| Raise (err : string).

Definition Script : Type := TemplateData → ResourceLoader → completion.

(** [`return ${functionBody.replace(/^[\s]+/, '')}`] *)
Definition implicit_return (functionBody : string) : string :=
  "return " +:+ replace_first false (Cat [Bol; Plus space]) (λ _, "") functionBody.

Section Resolver.

(** [new RegExp(source, 'g')] on a source that holds a name with a syntax
    character: the compiled pattern, or the message of the [SyntaxError]
    the constructor throws. *)
Variable newRegExp : string → string + RegExpObject.

(** [new Function('args', 'res', functionBody)]: the compiled script, or the
    message of the [SyntaxError] the constructor throws. *)
Variable newFunction : string → string + Script.

(** [new RegExp(source, 'g')], the source being built around the name
    [template]: a literal name gives the pattern [r]. *)
Definition RegExp_g (source : string) (r : regex) (template : string)
    : result RegExpObject :=
  if literal_name template then Ok (compiled r)
  else
    match newRegExp source with
    | inl msg => Throw (SyntaxError msg)
    | inr re => Ok re
    end.

(** [new RegExp(`{{ *${template} *\\?}}`, 'g')]. The name is spliced into the
    pattern as it is. *)
Definition maybeTemplate (template : string) : result RegExpObject :=
  RegExp_g ("{{ *" +:+ template +:+ " *\?}}") (maybe_pattern template) template.

(** [new RegExp(`{{ *${template} *\\??}}`, 'g')] *)
Definition anyTemplate (template : string) : result RegExpObject :=
  RegExp_g ("{{ *" +:+ template +:+ " *\??}}") (any_pattern template) template.

(** One turn of the loop over [Object.keys(data)] (lines 546-554). *)
Definition substitute (data : TemplateData) (loadedString template : string)
    : result string :=
  maybe ← maybeTemplate template;
  if regexp_test maybe loadedString
     && (is_empty_string (get data template)
         || is_undefined (get data template))
  then Ok loadedString
  else
    any ← anyTemplate template;
    Ok (regexp_replace any (λ _, ToString (get data template)) loadedString).

(** The loop of lines 546-554. *)
Fixpoint substitute_all (data : TemplateData) (loadedString : string)
    (templates : list string) : result string :=
  match templates with
  | [] => Ok loadedString
  | template :: templates' =>
      loadedString ← substitute data loadedString template;
      substitute_all data loadedString templates'
  end.

(** The implicit-return retry (lines 575-582): every exception inside it is
    caught and dropped. *)
Definition coerce_return (functionBody : string) (data : TemplateData)
    (res : ResourceLoader) : jsval :=
  let functionBody := implicit_return functionBody in
  match newFunction functionBody with
  | inl _ => undefined
  | inr script =>
      match script data res with
      | Return v => v
      | Raise _ => undefined
      end
  end.

(** The text of a block ([scriptData.match(scriptTemplate)[1] || ...[2]]). *)
Definition functionBodyOf (scriptData : string) : result string :=
  match exec true scriptTemplate scriptData with
  | None => Throw (TypeError "Cannot read properties of null")
  | Some m =>
      Ok (default "undefined" (or_else (groups m !! 1) (groups m !! 2)))
  end.

(** The first evaluation of a block (lines 568-572). *)
Definition evaluate (lang key functionBody : string) (data : TemplateData)
    (res : ResourceLoader) : result jsval :=
  match newFunction functionBody with
  | inl msg => Throw (SyntaxError msg)
  | inr script =>
      match script data res with
      | Return v => Ok v
      | Raise err =>
          Throw (Error ("in embedded localization script for: "
                        +:+ lang +:+ "::" +:+ key +:+ nl +:+ err))
      end
  end.

(** The body of the loop over the matched blocks (lines 565-586). *)
Definition script_step (lang key : string) (data : TemplateData)
    (loadedString scriptData : string) : result string :=
  let res := {| loader_lang := lang; loader_args := data |} in
  functionBody ← functionBodyOf scriptData;
  result ← evaluate lang key functionBody data res;
  let result :=
    match result with
    | undefined => coerce_return functionBody data res
    | _ => result
    end in
  if test false ownLineScript scriptData && negb (is_empty_string result)
  then Ok (replace_text scriptData (λ _, ToString result +:+ nl) loadedString)
  else Ok (replace_text scriptData (λ _, ToString result) loadedString).

Fixpoint script_loop (lang key : string) (data : TemplateData)
    (loadedString : string) (blocks : list string) : result string :=
  match blocks with
  | [] => Ok loadedString
  | scriptData :: blocks' =>
      loadedString ← script_step lang key data loadedString scriptData;
      script_loop lang key data loadedString blocks'
  end.

(** Lines 556-588. *)
Definition scripts (lang key : string) (data : TemplateData)
    (loadedString : string) : result string :=
  if test true scriptTemplate loadedString
  then script_loop lang key data loadedString
         (match_all true scriptTemplate loadedString)
  else Ok loadedString.

(** [Lang.res(lang, key, data = {})]; [None] is an omitted [data], which the
    default value turns into the empty bag (so that the test of line 544 is
    never true). [Lang.langs] is the object literal of line 209: for a name
    that it inherits and does not hold itself, the test of line 537 finds a
    function, [.strings] of it is [undefined], and line 541 throws. The
    table [strings] is that of a [Language], whose class is not among the
    sources: it is read as the mapping of the spec, see [Language]. *)
Definition res (st : State) (lang key : string) (data : option TemplateData)
    : result string :=
  let data := default [] data in
  langs ← langs st;
  match langs !! lang with
  | None =>
      if inherited lang
      then Throw (TypeError ("Cannot read property '" +:+ key
                             +:+ "' of undefined"))
      else Ok (lang +:+ "::" +:+ key)
  | Some language =>
      match strings language !! key with
      | None | Some "" => Ok (lang +:+ "::" +:+ key)
      | Some loadedString =>
          loadedString ← substitute_all data loadedString data.*1;
          loadedString ← scripts lang key data loadedString;
          Ok (finish loadedString)
      end
  end.

End Resolver.

(** ** Command and group help text *)

(** Modelled from the spec: [Util.getNestedValue(obj, [a, b])], whose source
    is not among the files. The tables it is used on are two levels deep (a
    third path element, in [getCommandInfo], names a field of the record
    found there); an absent path gives no value and never throws. *)
Definition getNestedValue {V} (obj : gmap string (gmap string V))
    (a b : string) : option V :=
  obj !! a ≫= λ inner, inner !! b.

(** Modelled from the spec: [Util.assignNestedValue(obj, [a, b], value)],
    whose source is not among the files: the value is stored under [a] then
    [b], the inner table being created when absent. *)
Definition assignNestedValue {V} (obj : gmap string (gmap string V))
    (a b : string) (value : V) : gmap string (gmap string V) :=
  <[a := <[b := value]> (default ∅ (obj !! a))]> obj.

(** What [getCommandInfo] is given as [command]: nothing, a value that is not
    a [Command], or a [Command]. *)
Inductive CommandArg : Type :=
| no_command
| not_a_command
| a_command (command : Command).

(** [v || d] *)
Definition or_default (v : option string) (d : string) : string :=
  match v with
  | Some "" | None => d
  | Some s => s
  end.

(** [Lang.getCommandInfo(command, lang)] *)
Definition getCommandInfo (st : State) (command : CommandArg) (lang : string)
    : result LocalizedCommandInfo :=
  i ← instance st;
  match command with
  | no_command =>
      Throw (Error "A Command must be given for which to get Command info")
  | not_a_command =>
      Throw (TypeError "command must be an instance of Command class")
  | a_command command =>
      let field f := getNestedValue (_commandInfo i) (cmd_name command) lang ≫= f in
      let desc := or_default (field desc) (cmd_desc command) in
      let info := or_default (field info) (cmd_info command) in
      let usage := or_default (field usage) (cmd_usage command) in
      Ok {| desc := Some desc; info := Some info; usage := Some usage |}
  end.

(** [Lang.getGroupInfo(group, lang)] *)
Definition getGroupInfo (st : State) (group lang : string) : result string :=
  i ← instance st;
  if bool_decide (group = "") then Throw (Error "A group must be provided")
  else Ok (or_default (getNestedValue (_groupInfo i) group lang)
             (lang +:+ "::group_" +:+ group)).

(** ** Loading *)

Definition set_client (i : Lang) (c : Client) : Lang :=
  {| _client := c; _commandInfo := _commandInfo i; _groupInfo := _groupInfo i;
     _langs := _langs i; _meta := _meta i |}.
Definition set_commandInfo (i : Lang)
    (ci : gmap string (gmap string LocalizedCommandInfo)) : Lang :=
  {| _client := _client i; _commandInfo := ci; _groupInfo := _groupInfo i;
     _langs := _langs i; _meta := _meta i |}.
Definition set_groupInfo (i : Lang) (gi : gmap string (gmap string string)) : Lang :=
  {| _client := _client i; _commandInfo := _commandInfo i; _groupInfo := gi;
     _langs := _langs i; _meta := _meta i |}.
Definition set_langs (i : Lang) (ls : gmap string Language) : Lang :=
  {| _client := _client i; _commandInfo := _commandInfo i;
     _groupInfo := _groupInfo i; _langs := ls; _meta := _meta i |}.

(** [Lang.langNames], as the set it is built from. *)
Definition langNames (st : State) : result (gset string) :=
  i ← instance st;
  langs ← langs st;
  Ok (map_fold (λ _ byLang acc, acc ∪ dom byLang) ∅ (_commandInfo i) ∪ dom langs).

(** [commands.get('setlang').enable()] *)
Definition enable_setlang (c : Client) : Client :=
  {| disableBase := disableBase c; setlang_disabled := Some false |}.

(** [Lang.postLoad()] *)
Definition postLoad (st : State) : result State :=
  names ← langNames st;
  i ← instance st;
  if (1 <? size names)
     && negb (bool_decide ("setlang" ∈ disableBase (_client i)))
     && match setlang_disabled (_client i) with
        | Some disabled => disabled
        | None => false
        end
  then Ok (Some (set_client i (enable_setlang (_client i))))
  else Ok st.

(** The file system as the loaders see it: [path.resolve], [glob.sync],
    [fs.readFileSync(..).toString()] or the exception it throws, and
    [require] at the two types it is used at, giving the parsed file or the
    [stack] of the error it throws. A parsed object is the list of its
    properties in the order of [Object.keys]. *)
Record FileSystem := {
  resolve : string → string;
  glob_sync : string → list string;
  readFileSync : string → result string;
  require_commands :
    string → string + list (string * list (string * LocalizedCommandInfo));
  require_groups : string → string + list (string * list (string * string))
}.

(** [/\/([^\/\.]+)(?:\.[^\/]+)?\.lang$/] *)
Definition langNameRegex : regex :=
  Cat [Chr "/"; Grp 1 (Plus not_slash_dot); Opt (Cat [Chr "."; Plus not_slash]);
       Lit ".lang"; Eol].

(** [langFile.match(langNameRegex)[1]] when the pattern matches. *)
Definition langNameOf (langFile : string) : option string :=
  exec false langNameRegex langFile ≫= λ m, groups m !! 1.

(** [if (!langs[langName]) langs[langName] = []; langs[langName].push(langFile)]
    for a name that [langs] holds or does not inherit: the properties in the
    order of their creation. *)
Fixpoint push (langName langFile : string) (langs : list (string * list string))
    : list (string * list string) :=
  match langs with
  | [] => [(langName, [langFile])]
  | (n, files) :: langs' =>
      if bool_decide (n = langName) then (n, files ++ [langFile]) :: langs'
      else (n, files) :: push langName langFile langs'
  end.

(** Lines 339-345: the files of each language, in the order they were found.
    [langs] is an object literal: for a name that it inherits,
    [langs[langName]] is a function, no list is created, and the call of
    [push] throws. *)
Fixpoint group_by_language (langs : list (string * list string))
    (allLangFiles : list string) : result (list (string * list string)) :=
  match allLangFiles with
  | [] => Ok langs
  | langFile :: allLangFiles' =>
      match langNameOf langFile with
      | None => group_by_language langs allLangFiles'
      | Some langName =>
          if inherited langName
          then Throw (TypeError "langs[langName].push is not a function")
          else group_by_language (push langName langFile langs) allLangFiles'
      end
  end.

(** The name of a property that is an array index: the canonical decimal
    form of a number below [2^32 - 1]. *)
Definition digit (c : ascii) : option N :=
  let n := N_of_ascii c in
  if ((48 <=? n) && (n <=? 57))%N then Some (n - 48)%N else None.

Fixpoint digits (acc : N) (s : string) : option N :=
  match s with
  | "" => Some acc
  | String c s' => d ← digit c; digits (acc * 10 + d)%N s'
  end.

Definition array_index (name : string) : option N :=
  match name with
  | "" => None
  | String "0" "" => Some 0%N
  | String "0" _ => None
  | _ => n ← digits 0 name; if (n <? 4294967295)%N then Some n else None
  end.

(** The properties of an object in the order in which Node lists them for
    [Object.keys]: the array indices in ascending order, then the other
    names in the order of their creation. *)
Definition Object_entries {V} (o : list (string * V)) : list (string * V) :=
  merge_sort
    (λ a b, (default 0 (array_index a.1) <=? default 0 (array_index b.1))%N)
    (filter (λ e, is_Some (array_index e.1)) o)
  ++ filter (λ e, ¬ is_Some (array_index e.1)) o.

(** Modelled from the spec: [Language.concat], whose source is not among the
    files. The fragment is merged into the table, and on a key that both
    define the fragment, merged last, wins. *)
Definition concat (this other : Language) : Language :=
  {| name := name this; strings := strings other ∪ strings this |}.

(** [{ ...a, ...b }] on help records: a field that [b] has wins. *)
Definition spread (a b : LocalizedCommandInfo) : LocalizedCommandInfo :=
  {| desc := match desc b with Some x => Some x | None => desc a end;
     info := match info b with Some x => Some x | None => info a end;
     usage := match usage b with Some x => Some x | None => usage a end |}.

Definition no_info : LocalizedCommandInfo :=
  {| desc := None; info := None; usage := None |}.

(** Lines 419-425. *)
Definition merge_entry (commandInfo : gmap string (gmap string LocalizedCommandInfo))
    (command lang : string) (localization : LocalizedCommandInfo)
    : gmap string (gmap string LocalizedCommandInfo) :=
  let commandInfo :=
    match getNestedValue commandInfo command lang with
    | None => assignNestedValue commandInfo command lang no_info
    | Some _ => commandInfo
    end in
  let byLang := default ∅ (commandInfo !! command) in
  <[command := <[lang := spread (default no_info (byLang !! lang)) localization]> byLang]>
    commandInfo.

(** Lines 416-426. *)
Definition merge_localizations
    (commandInfo : gmap string (gmap string LocalizedCommandInfo))
    (localizations : list (string * list (string * LocalizedCommandInfo)))
    : gmap string (gmap string LocalizedCommandInfo) :=
  foldl (λ ci entry,
           foldl (λ ci l, merge_entry ci entry.1 l.1 l.2) ci entry.2)
    commandInfo localizations.

(** [fs.readFileSync(langFile).toString().replace(/\r\n/g, '\n')] *)
Definition text_of (fs : FileSystem) (langFile : string) : result string :=
  loadedLangFile ← readFileSync fs langFile;
  Ok (replace_all false (Lit (String CR nl)) (λ _, nl) loadedLangFile).

Section Loader.

Variable fs : FileSystem.

(** Modelled from the spec: [LangFileParser.parseFile(langName, text)],
    whose source is not among the files: the fragment of one resource
    file, or the exception that a malformed file makes the parser throw. *)
Variable parseFile : string → string → result Language.

(** Lines 351-363: one file of [langName] is read, parsed and merged. No
    [try] surrounds the two calls: an exception of [readFileSync] or of the
    parser ends the load, with the store as the files before have left
    it. *)
Definition load_file (langName : string) (store : gmap string Language)
    (langFile : string) : gmap string Language * option exn :=
  if negb (test false langNameRegex langFile) then (store, None)
  else
    match text_of fs langFile with
    | Throw e => (store, Some e)
    | Ok loadedLangFile =>
        match parseFile langName loadedLangFile with
        | Throw e => (store, Some e)
        | Ok parsedLanguageFile =>
            (match store !! langName with
             | Some language =>
                 <[langName := concat language parsedLanguageFile]> store
             | None => <[langName := parsedLanguageFile]> store
             end, None)
        end
    end.

(** The loop of line 349 over the files of one language. *)
Fixpoint load_files (langName : string) (store : gmap string Language)
    (langFiles : list string) : gmap string Language * option exn :=
  match langFiles with
  | [] => (store, None)
  | langFile :: langFiles' =>
      match load_file langName store langFile with
      | (store, None) => load_files langName store langFiles'
      | (store, Some e) => (store, Some e)
      end
  end.

(** The loop of line 347 over the languages. *)
Fixpoint load_languages (store : gmap string Language)
    (langs : list (string * list string))
    : gmap string Language * option exn :=
  match langs with
  | [] => (store, None)
  | (langName, langFiles) :: langs' =>
      match load_files langName store langFiles with
      | (store, None) => load_languages store langs'
      | (store, Some e) => (store, Some e)
      end
  end.

(** [Lang.loadLocalizationsFrom(dir)]: the state it leaves, and the
    exception it ends with, if any. *)
Definition loadLocalizationsFrom (st : State) (dir : string)
    : State * option exn :=
  match st with
  | None => (st, Some not_created_error)
  | Some i =>
      let dir := resolve fs dir in
      let allLangFiles := glob_sync fs (dir +:+ "/**/*.lang") in
      if bool_decide (length allLangFiles = 0)
      then (st, Some (Error ("Failed to find any localization files in: "
                             +:+ dir)))
      else
        match group_by_language [] allLangFiles with
        | Throw e => (st, Some e)
        | Ok langs =>
            match load_languages (_langs i) (Object_entries langs) with
            | (store, Some e) => (Some (set_langs i store), Some e)
            | (store, None) =>
                match postLoad (Some (set_langs i store)) with
                | Ok st' => (st', None)
                | Throw e => (Some (set_langs i store), Some e)
                end
            end
        end
  end.

(** Lines 410-426: one discovered help file. *)
Definition load_command_file
    (commandInfo : gmap string (gmap string LocalizedCommandInfo))
    (langFile : string) : gmap string (gmap string LocalizedCommandInfo) :=
  if test false (Cat [Lit "commandgroups.lang.json"; Eol]) langFile
  then commandInfo
  else
    match require_commands fs langFile with
    | inl _ => commandInfo
    | inr localizations => merge_localizations commandInfo localizations
    end.

(** [Lang.loadCommandLocalizationsFrom(dir)] *)
Definition loadCommandLocalizationsFrom (st : State) (dir : string)
    : result State :=
  i ← instance st;
  let dir := resolve fs dir in
  let allLangFiles := glob_sync fs (dir +:+ "/**/*.lang.json") in
  if bool_decide (length allLangFiles = 0) then Ok st
  else
    postLoad (Some (set_commandInfo i
                      (foldl load_command_file (_commandInfo i) allLangFiles))).

(** [Lang.loadGroupLocalizationsFrom(dir)] *)
Definition loadGroupLocalizationsFrom (st : State) (dir : string)
    : result State :=
  i ← instance st;
  let dir := resolve fs dir in
  match glob_sync fs (dir +:+ "/**/commandgroups.lang.json") with
  | [] | "" :: _ => Ok st
  | filePath :: _ =>
      match require_groups fs filePath with
      | inl stack =>
          Throw (Error ("Failed to load group localizations from '"
                        +:+ filePath +:+ ":" +:+ nl +:+ stack))
      | inr groupInfo =>
          Ok (Some (set_groupInfo i
                (foldl (λ gi entry,
                          foldl (λ gi l, assignNestedValue gi entry.1 l.1 l.2)
                            gi entry.2)
                   (_groupInfo i) groupInfo)))
      end
  end.

End Loader.

(** ** The earlier revision of the string loader

    The first listing of [Lang.ts] is the revision in which resource files
    were JSON objects and [loadLocalizations] merged them with an object
    spread. *)
Module Revision1.

Record Lang := {
  client_localeDir : option string;
  langs : gmap string (gmap string string)
}.

(** [/\/([^\/\.]+)(?:\..+)?\.lang\.json/] *)
Definition langNameRegex : regex :=
  Cat [Chr "/"; Grp 1 (Plus not_slash_dot); Opt (Cat [Chr "."; Plus dot]);
       Lit ".lang.json"].

Definition langNameOf (langFile : string) : option string :=
  exec false langNameRegex langFile ≫= λ m, groups m !! 1.

Section Loader.
(** [glob.sync], [require] of a string table (or the error it throws),
    and [path.join(__dirname, './en_us')]. *)
Variable glob_sync : string → list string.
Variable require : string → exn + gmap string string.
Variable en_us : string.

(** The loop of lines 80-91. An exception of [require] leaves the loop
    with the tables merged so far. *)
Fixpoint load_files (langs : gmap string (gmap string string))
    (langFiles : list string)
    : gmap string (gmap string string) * option exn :=
  match langFiles with
  | [] => (langs, None)
  | langFile :: langFiles' =>
      match require langFile with
      | inl e => (langs, Some e)
      | inr loadedLangFile =>
          match langNameOf langFile with
          | None => load_files langs langFiles'
          | Some langName =>
              match langs !! langName with
              | Some table =>
                  load_files (<[langName := loadedLangFile ∪ table]> langs)
                    langFiles'
              | None =>
                  load_files (<[langName := loadedLangFile]> langs) langFiles'
              end
          end
      end
  end.

(** Lines 75-78: the files of the bundled directory, then those of the
    client's [localeDir] when it is set. *)
Definition langFiles (i : Lang) : list string :=
  glob_sync (en_us +:+ "/**/*.lang.json")
  ++ match client_localeDir i with
     | Some localeDir =>
         if bool_decide (localeDir = "") then []
         else glob_sync (localeDir +:+ "/**/*.lang.json")
     | None => []
     end.

(** [Lang.loadLocalizations()] of that revision: the state it leaves and
    the exception it ends with, if any. *)
Definition loadLocalizations (st : option Lang) : option Lang * option exn :=
  match st with
  | None => (None, None)
  | Some i =>
      let r := load_files (langs i) (langFiles i) in
      (Some {| client_localeDir := client_localeDir i; langs := r.1 |}, r.2)
  end.

(** The tables of the files of one language, in the order of the files. *)
Definition tables (langName : string) (files : list string)
    : list (gmap string string) :=
  omap (λ langFile,
          match require langFile with
          | inr t =>
              if bool_decide (langNameOf langFile = Some langName)
              then Some t else None
          | inl _ => None
          end) files.

(** What one loaded file does to the entry of its language. *)
Definition merge_table (entry : option (gmap string string))
    (t : gmap string string) : option (gmap string string) :=
  Some match entry with
       | Some table => t ∪ table
       | None => t
       end.
End Loader.

End Revision1.

(** ** Concrete stores, script hosts and file systems for the examples *)

Definition no_client : Client :=
  {| disableBase := []; setlang_disabled := None |}.

Definition empty_instance : Lang :=
  {| _client := no_client; _commandInfo := ∅; _groupInfo := ∅; _langs := ∅;
     _meta := ∅ |}.

(** A store with one language holding one string. *)
Definition one_string (lang key template : string) : State :=
  Some (set_langs empty_instance
          {[ lang := {| name := lang; strings := {[ key := template ]} |} ]}).

(** A script host given by a table from function bodies to the way their call
    ends; any other body does not compile. *)
Definition host (table : list (string * completion)) : string → string + Script :=
  λ functionBody,
    match list_find (λ e, e.1 = functionBody) table with
    | Some (_, (_, c)) => inr (λ _ _, c)
    | None => inl "Unexpected token"
    end.

(** A file system given by the list of its files: the path, the text, and
    what [require] makes of it. *)
Record file := {
  path : string;
  content : string;
  as_commands : string + list (string * list (string * LocalizedCommandInfo));
  as_groups : string + list (string * list (string * string))
}.

Definition find_file (files : list file) (p : string) : option file :=
  snd <$> list_find (λ f, path f = p) files.

(** Every scan of [disk files] finds all of [files], in their order. *)
Definition disk (files : list file) : FileSystem :=
  {| resolve := id;
     glob_sync := λ _, path <$> files;
     readFileSync := λ p,
       match find_file files p with
       | Some f => Ok (content f)
       | None => Throw (Error "ENOENT: no such file or directory")
       end;
     require_commands := λ p,
       from_option as_commands (inl "Cannot find module") (find_file files p);
     require_groups := λ p,
       from_option as_groups (inl "Cannot find module") (find_file files p) |}.

Definition text_file (p c : string) : file :=
  {| path := p; content := c; as_commands := inl "SyntaxError";
     as_groups := inl "SyntaxError" |}.

(** A parser for the examples: a file [key=value] defines that one key, and
    a text without [=] is malformed. *)
Definition split_at_equals (s : string) : string * string :=
  match exec false (Cat [Bol; Grp 1 (Star (λ c, negb (is_chr "="%char c)));
                         Chr "="; Grp 2 (Star any)]) s with
  | Some m => (default "" (groups m !! 1), default "" (groups m !! 2))
  | None => (s, "")
  end.
Definition one_line (langName text : string) : Language :=
  {| name := langName;
     strings := {[ (split_at_equals text).1 := (split_at_equals text).2 ]} |}.
Definition one_line_parser (langName text : string) : result Language :=
  if has_char "=" text then Ok (one_line langName text)
  else Throw (Error "Expected key=value").

(** Stores and bags used by the examples. *)
Definition score_template : string := "Score: {{ score?}}" +:+ nl.

Definition help_fr : LocalizedCommandInfo :=
  {| desc := Some "Salut"; info := Some ""; usage := None |}.
Definition ping : Command :=
  {| cmd_name := "ping"; cmd_desc := "D"; cmd_info := "I"; cmd_usage := "U" |}.
Definition with_help : Lang :=
  set_commandInfo empty_instance {[ "ping" := {[ "fr" := help_fr ]} ]}.

(** A host of patterns given by a table from pattern sources to what they
    compile to; any other source is rejected. *)
Definition regexps (table : list (string * regex))
    : string → string + RegExpObject :=
  λ source,
    match list_find (λ e, e.1 = source) table with
    | Some (_, (_, r)) => inr (compiled r)
    | None => inl "Invalid regular expression"
    end.

(** One turn of the loop over [Object.keys(data)] for a literal name. *)
Definition substitute_literal (data : TemplateData)
    (loadedString template : string) : string :=
  if test false (maybe_pattern template) loadedString
     && (is_empty_string (get data template)
         || is_undefined (get data template))
  then loadedString
  else replace_all false (any_pattern template)
         (λ _, ToString (get data template)) loadedString.

(** The text that lines 584-586 put in the place of a block whose evaluation
    gave [result]. *)
Definition replacement (scriptData : string) (result : jsval) : string :=
  if test false ownLineScript scriptData && negb (is_empty_string result)
  then ToString result +:+ nl
  else ToString result.

(** A block both of whose evaluations end without a fault and without a
    value. *)
Definition gives_no_value (newFunction : string → string + Script)
    (lang : string) (data : TemplateData) (scriptData : string) : Prop :=
  ∃ functionBody script retry,
    functionBodyOf scriptData = Ok functionBody
    ∧ newFunction functionBody = inr script
    ∧ script data {| loader_lang := lang; loader_args := data |} = Return undefined
    ∧ newFunction (implicit_return functionBody) = inr retry
    ∧ retry data {| loader_lang := lang; loader_args := data |} = Return undefined.

(** What such a block is replaced with: the word [undefined], and a line feed
    when the block was matched with the end of its own line. *)
Definition undefined_text (scriptData : string) : string :=
  if test false ownLineScript scriptData then "undefined" +:+ nl else "undefined".

(** The claim about [getCommandInfo], in its words: the localized value of a
    field for a command and a language, and the rule that the returned field
    follows. *)
Definition localized (i : Lang) (command : Command) (lang : string)
    (field : LocalizedCommandInfo → option string) : option string :=
  byLang ← _commandInfo i !! cmd_name command;
  localization ← byLang !! lang;
  field localization.

Definition per_field_fallback (localized : option string) (compiled : string)
    (returned : option string) : Prop :=
  (∀ s, localized = Some s → s ≠ "" → returned = Some s)
  ∧ (localized = None ∨ localized = Some "" → returned = Some compiled).

(** A directory of help files: the second one does not parse. *)
Definition help_files : list file :=
  [ {| path := "/cmds/ping.lang.json"; content := "";
       as_commands := inr [("ping", [("fr", help_fr)])];
       as_groups := inl "SyntaxError" |};
    text_file "/cmds/broken.lang.json" "{";
    {| path := "/cmds/pong.lang.json"; content := "";
       as_commands := inr [("pong", [("fr", help_fr)])];
       as_groups := inl "SyntaxError" |} ].

(** The files grouped under one language. *)
Fixpoint files_of (langName : string) (langs : list (string * list string))
    : list string :=
  match langs with
  | [] => []
  | (n, files) :: langs' =>
      if bool_decide (n = langName) then files else files_of langName langs'
  end.

(** A discovered file that [loadLocalizationsFrom] takes without an
    exception: the language that its name gives is not a name inherited
    from [Object.prototype], and the file is read and parsed. A file whose
    path gives no language is skipped, whatever it holds. *)
Definition loadable (fs : FileSystem)
    (parseFile : string → string → result Language) (langFile : string)
    : bool :=
  match langNameOf langFile with
  | None => true
  | Some langName =>
      negb (inherited langName)
      && match text_of fs langFile ≫= parseFile langName with
         | Ok _ => true
         | Throw _ => false
         end
  end.

(** The fragment that a file of the language gives; the empty fragment
    stands for a file that is not read or not parsed. *)
Definition parsed (fs : FileSystem)
    (parseFile : string → string → result Language)
    (langName langFile : string) : Language :=
  match text_of fs langFile ≫= parseFile langName with
  | Ok fragment => fragment
  | Throw _ => {| name := langName; strings := ∅ |}
  end.

(** The grouping of files none of which has an inherited name. *)
Definition grouped (allLangFiles : list string)
    : list (string * list string) :=
  foldl (λ langs langFile,
           match langNameOf langFile with
           | None => langs
           | Some langName => push langName langFile langs
           end) [] allLangFiles.

(** The fragments of one language among the discovered files, in the order of
    discovery. *)
Definition fragments (fs : FileSystem)
    (parseFile : string → string → result Language)
    (langName : string) (allLangFiles : list string) : list Language :=
  parsed fs parseFile langName
    <$> filter (λ langFile, langNameOf langFile = Some langName) allLangFiles.

(** What [load_file] does to the store when the file is loadable. *)
Definition merge_file (fs : FileSystem)
    (parseFile : string → string → result Language)
    (langName : string) (store : gmap string Language) (langFile : string)
    : gmap string Language :=
  if negb (test false langNameRegex langFile) then store
  else
    match store !! langName with
    | Some language =>
        <[langName := concat language (parsed fs parseFile langName langFile)]> store
    | None => <[langName := parsed fs parseFile langName langFile]> store
    end.

(** What [load_file] does to the entry of its language. *)
Definition load_entry (fs : FileSystem)
    (parseFile : string → string → result Language)
    (langName : string) (entry : option Language) (langFile : string)
    : option Language :=
  if negb (test false langNameRegex langFile) then entry
  else
    Some match entry with
         | Some language => concat language (parsed fs parseFile langName langFile)
         | None => parsed fs parseFile langName langFile
         end.

(** Merging tables one after the other, the later one first in each union. *)
Definition merged {V} (init : gmap string V) (tables : list (gmap string V))
    : gmap string V :=
  foldl (λ acc t, t ∪ acc) init tables.

(** Two files of [en_us] that both define [HELLO]; the second is found
    last. *)
Definition hello_files : list file :=
  [ text_file "/loc/en_us.lang" "HELLO=Hi";
    text_file "/loc/fr.lang" "HELLO=Salut";
    text_file "/loc/en_us.extra.lang" "HELLO=Hello" ].



(** ** A declarative reading of the patterns

    [matches m r cur cur']: the pattern [r] can take the matcher from [cur]
    to [cur']. The matcher [run] explores these possibilities in the order
    of ECMAScript. *)
Inductive matches (m : bool) : regex → cursor → cursor → Prop :=
| matches_Eps cur : matches m Eps cur cur
| matches_Chr c s' cur :
    rest cur = String c s' →
    matches m (Chr c) cur (Cursor (Some c) s' (caps cur))
| matches_Cls p c s' cur :
    rest cur = String c s' → p c = true →
    matches m (Cls p) cur (Cursor (Some c) s' (caps cur))
| matches_Bol cur : at_bol m cur = true → matches m Bol cur cur
| matches_Eol cur : at_eol m cur = true → matches m Eol cur cur
| matches_Seq r1 r2 cur mid cur' :
    matches m r1 cur mid → matches m r2 mid cur' →
    matches m (Seq r1 r2) cur cur'
| matches_Alt_l r1 r2 cur cur' :
    matches m r1 cur cur' → matches m (Alt r1 r2) cur cur'
| matches_Alt_r r1 r2 cur cur' :
    matches m r2 cur cur' → matches m (Alt r1 r2) cur cur'
| matches_Star_0 p pv s cs :
    matches m (Star p) (Cursor pv s cs) (Cursor pv s cs)
| matches_Star_S p pv c s cs cur' :
    p c = true →
    matches m (Star p) (Cursor (Some c) s cs) cur' →
    matches m (Star p) (Cursor pv (String c s) cs) cur'
| matches_Grp i r cur cur' :
    matches m r cur cur' →
    matches m (Grp i r) cur
      (Cursor (prev cur') (rest cur')
         (<[i := consumed (rest cur) (rest cur')]> (caps cur'))).

(** The tails that a language file name may have after the name. *)
Definition lang_tail (tail : string) : Prop :=
  tail = ".lang"
  ∨ ∃ tag, tag ≠ "" ∧ all_chars not_slash tag = true
           ∧ tail = "." +:+ tag +:+ ".lang".

(** A pattern all of whose matches open with the character [c0]. *)
Definition opens_with (c0 : ascii) (r : regex) : Prop :=
  ∀ m pv s cs cur', matches m r (Cursor pv s cs) cur' → ∃ s', s = String c0 s'.

(** The three fields of a help record. *)
Inductive field : Type := Desc | Info | Usage.

Definition field_of (f : field) : LocalizedCommandInfo → option string :=
  match f with
  | Desc => desc
  | Info => info
  | Usage => usage
  end.

(** What the command itself gives for a field. *)
Definition own_field (f : field) (command : Command) : string :=
  match f with
  | Desc => cmd_desc command
  | Info => cmd_info command
  | Usage => cmd_usage command
  end.

(** The help records that the discovered files give for one command and one
    language, in the order in which [loadCommandLocalizationsFrom] merges
    them. *)
Definition help_entries (fs : FileSystem) (files : list string)
    (command lang : string) : list LocalizedCommandInfo :=
  files ≫= λ langFile,
    if test false (Cat [Lit "commandgroups.lang.json"; Eol]) langFile then []
    else
      match require_commands fs langFile with
      | inl _ => []
      | inr localizations =>
          localizations ≫= λ entry,
            if bool_decide (entry.1 = command)
            then (filter (λ l, l.1 = lang) entry.2).*2
            else []
      end.

(** One more record merged into what is known of a command and a
    language. *)
Definition merge_help (known : option LocalizedCommandInfo)
    (localization : LocalizedCommandInfo) : option LocalizedCommandInfo :=
  Some (spread (default no_info known) localization).

(** The descriptions that a parsed group file gives for one group and one
    language, in the order of the file. *)
Definition group_entries (groupInfo : list (string * list (string * string)))
    (group lang : string) : list string :=
  groupInfo ≫= λ entry,
    if bool_decide (entry.1 = group)
    then (filter (λ l, l.1 = lang) entry.2).*2
    else [].

(** ** Metadata and the loaders called at startup *)

Definition set_meta (i : Lang) (meta : gmap string (gmap string jsval)) : Lang :=
  {| _client := _client i; _commandInfo := _commandInfo i;
     _groupInfo := _groupInfo i; _langs := _langs i; _meta := meta |}.

(** [Lang.setMetaValue(lang, key, value)] *)
Definition setMetaValue (st : State) (lang key : string) (value : jsval)
    : result State :=
  i ← instance st;
  Ok (Some (set_meta i (assignNestedValue (_meta i) lang key value))).

(** [Lang.getMetaValue(lang, key)] *)
Definition getMetaValue (st : State) (lang key : string) : result jsval :=
  i ← instance st;
  Ok (default undefined (getNestedValue (_meta i) lang key)).

(** The two directories of the client that the loaders read: [localeDir] and
    [commandsDir], [None] when the option is not set. *)
Record Directories := {
  localeDir : option string;
  commandsDir : option string
}.

(** [if (dir)] on an optional directory. *)
Definition given (dir : option string) : option string :=
  match dir with
  | Some "" | None => None
  | Some d => Some d
  end.

Section Startup.

Variable fs : FileSystem.
Variable parseFile : string → string → result Language.

(** [path.join(__dirname, './en_us')] *)
Variable en_us : string.

(** The directories of [Lang._instance._client]. *)
Variable dirs : Directories.

(** [Lang.loadLocalizations()]: the state it leaves, and the exception it
    ends with, if any. *)
Definition loadLocalizations (st : State) : State * option exn :=
  match instance st with
  | Throw e => (st, Some e)
  | Ok _ =>
      match setMetaValue st "en_us" "name" (str "English") with
      | Throw e => (st, Some e)
      | Ok st1 =>
          match loadLocalizationsFrom fs parseFile st1 en_us with
          | (st2, Some e) => (st2, Some e)
          | (st2, None) =>
              match given (localeDir dirs) with
              | None => (st2, None)
              | Some localeDir => loadLocalizationsFrom fs parseFile st2 localeDir
              end
          end
      end
  end.

(** [Lang.loadCommandLocalizations()], likewise; the two loaders it calls
    change nothing when they throw. *)
Definition loadCommandLocalizations (st : State) : State * option exn :=
  match instance st with
  | Throw e => (st, Some e)
  | Ok _ =>
      match loadGroupLocalizationsFrom fs st en_us with
      | Throw e => (st, Some e)
      | Ok st1 =>
          match given (commandsDir dirs) with
          | None => (st1, None)
          | Some commandsDir =>
              match loadCommandLocalizationsFrom fs st1 commandsDir with
              | Throw e => (st1, Some e)
              | Ok st2 =>
                  match loadGroupLocalizationsFrom fs st2 commandsDir with
                  | Throw e => (st2, Some e)
                  | Ok st3 => (st3, None)
                  end
              end
          end
      end
  end.

End Startup.

(** A bundled directory and a directory of the client that both define
    [HELLO] for [en_us]. *)
Definition startup_disk : FileSystem :=
  {| resolve := id;
     glob_sync := λ pattern,
       if bool_decide (pattern = "/base/en_us/**/*.lang") then ["/base/en_us/en_us.lang"]
       else if bool_decide (pattern = "/my/**/*.lang") then ["/my/en_us.lang"]
       else [];
     readFileSync := λ p,
       if bool_decide (p = "/base/en_us/en_us.lang") then Ok "HELLO=Hello"
       else Ok "HELLO=Howdy";
     require_commands := λ _, inl "Cannot find module";
     require_groups := λ _, inl "Cannot find module" |}.

(** Help text for one command in three files: the first gives a
    description, the second an empty one, the third the usage only. *)
Definition emptied_help_files : list file :=
  [ {| path := "/cmds/a.lang.json"; content := "";
       as_commands :=
         inr [("ping", [("fr", {| desc := Some "Salut"; info := None; usage := None |})])];
       as_groups := inl "SyntaxError" |};
    {| path := "/cmds/b.lang.json"; content := "";
       as_commands :=
         inr [("ping", [("fr", {| desc := Some ""; info := None; usage := None |})])];
       as_groups := inl "SyntaxError" |};
    {| path := "/cmds/c.lang.json"; content := "";
       as_commands :=
         inr [("ping", [("fr", {| desc := None; info := None;
                                  usage := Some "<prefix>ping" |})])];
       as_groups := inl "SyntaxError" |} ].

(** * Properties *)

(** ** The resolver: look-up *)

(** What [res] does once the template is found and is not empty. *)
Lemma res_found newRegExp newFunction i lang key data language template :
  _langs i !! lang = Some language →
  strings language !! key = Some template →
  template ≠ "" →
  res newRegExp newFunction (Some i) lang key data =
    (loadedString ←
       substitute_all newRegExp (default [] data) template (default [] data).*1;
     loadedString ← scripts newFunction lang key (default [] data) loadedString;
     Ok (finish loadedString)).
Proof.
  intros Hl Hk Hne. unfold res. simpl. rewrite Hl, Hk.
  destruct template; [done | reflexivity].
Qed.

(** Without a data bag nothing is substituted. *)
Lemma res_without_data newRegExp newFunction i lang key language template :
  _langs i !! lang = Some language →
  strings language !! key = Some template →
  template ≠ "" →
  res newRegExp newFunction (Some i) lang key None =
    (loadedString ← scripts newFunction lang key [] template;
     Ok (finish loadedString)).
Proof.
  intros Hl Hk Hne. unfold res. simpl. rewrite Hl, Hk.
  destruct template; [done | reflexivity].
Qed.

(** A literal name is substituted as its own text. *)
Lemma substitute_literal_name newRegExp data loadedString template :
  literal_name template = true →
  substitute newRegExp data loadedString template =
    Ok (substitute_literal data loadedString template).
Proof.
  intros H. unfold substitute, maybeTemplate, anyTemplate, RegExp_g,
    substitute_literal. rewrite H. simpl.
  by destruct (test false (maybe_pattern template) loadedString && _).
Qed.

Lemma substitute_all_literal newRegExp data loadedString templates :
  Forall (λ template, literal_name template = true) templates →
  substitute_all newRegExp data loadedString templates =
    Ok (foldl (substitute_literal data) loadedString templates).
Proof.
  intros H. revert loadedString.
  induction H as [|template templates Ht _ IH]; intros loadedString; [done|].
  cbn [substitute_all foldl]. rewrite substitute_literal_name by done.
  simpl. apply IH.
Qed.

(** C1 at a language that the store does not hold. The guard of line 537
    gives the sentinel [<lang>::<key>], except for a name that the object
    literal [_langs] inherits from [Object.prototype]: there the guard
    finds a function, and line 541 throws a [TypeError] instead of
    returning the sentinel. *)
Theorem res_unknown_language newRegExp newFunction (i : Lang)
    (lang key : string) (data : option TemplateData) :
  _langs i !! lang = None →
  res newRegExp newFunction (Some i) lang key data =
    if inherited lang
    then Throw (TypeError ("Cannot read property '" +:+ key
                           +:+ "' of undefined"))
    else Ok (lang +:+ "::" +:+ key).
Proof. intros Hl. unfold res. simpl. by rewrite Hl. Qed.

Lemma res_unknown_language_witness :
  res (regexps []) (host []) (one_string "en_us" "HELLO" "Hello")
    "constructor" "HELLO" None
    = Throw (TypeError "Cannot read property 'HELLO' of undefined")
  ∧ res (regexps []) (host []) (one_string "en_us" "HELLO" "Hello")
      "fr" "HELLO" None = Ok "fr::HELLO".
Proof.
  split.
  - apply (res_unknown_language (regexps []) (host [])
             (set_langs empty_instance
                {[ "en_us" := {| name := "en_us"; strings := {[ "HELLO" := "Hello" ]} |} ]})
             "constructor" "HELLO" None).
    vm_compute. reflexivity.
  - apply (res_unknown_language (regexps []) (host [])
             (set_langs empty_instance
                {[ "en_us" := {| name := "en_us"; strings := {[ "HELLO" := "Hello" ]} |} ]})
             "fr" "HELLO" None).
    vm_compute. reflexivity.
Defined.

(** C10. A key whose stored template is the empty string resolves to the
    sentinel, exactly as it does once the key is deleted from the table. *)
Theorem res_empty_template_gives_sentinel newRegExp newFunction (i : Lang)
    (lang key : string) (data : option TemplateData) (language : Language) :
  _langs i !! lang = Some language →
  strings language !! key = Some "" →
  res newRegExp newFunction (Some i) lang key data = Ok (lang +:+ "::" +:+ key)
  ∧ res newRegExp newFunction
      (Some (set_langs i
               (<[lang := {| name := name language;
                             strings := delete key (strings language) |}]>
                  (_langs i))))
      lang key data = Ok (lang +:+ "::" +:+ key).
Proof.
  intros Hl Hk. split.
  - unfold res. simpl. by rewrite Hl, Hk.
  - unfold res. simpl. rewrite lookup_insert_eq. simpl.
    by rewrite lookup_delete_eq.
Qed.

Lemma res_empty_template_gives_sentinel_witness :
  res (regexps []) (host []) (one_string "en_us" "EMPTY" "") "en_us" "EMPTY" None
    = Ok "en_us::EMPTY".
Proof.
  refine (proj1 (res_empty_template_gives_sentinel (regexps []) (host [])
            (set_langs empty_instance
               {[ "en_us" := {| name := "en_us"; strings := {[ "EMPTY" := "" ]} |} ]})
            "en_us" "EMPTY" None
            {| name := "en_us"; strings := {[ "EMPTY" := "" ]} |} _ _));
    vm_compute; reflexivity.
Defined.

(** ** The resolver: optional tokens *)

Lemma scripts_without_block newFunction lang key data loadedString :
  test true scriptTemplate loadedString = false →
  scripts newFunction lang key data loadedString = Ok loadedString.
Proof. intros H. unfold scripts. by rewrite H. Qed.

(** The resolution of a template that holds no script block once its tokens
    are substituted. *)
Lemma res_without_block newRegExp newFunction i lang key data language
    template substituted :
  _langs i !! lang = Some language →
  strings language !! key = Some template →
  template ≠ "" →
  substitute_all newRegExp (default [] data) template (default [] data).*1
    = Ok substituted →
  test true scriptTemplate substituted = false →
  res newRegExp newFunction (Some i) lang key data = Ok (finish substituted).
Proof.
  intros Hl Hk Hne Hs Ht. rewrite (res_found _ _ _ _ _ _ _ _ Hl Hk Hne), Hs.
  simpl. by rewrite scripts_without_block.
Qed.

(** The same for a data bag whose names are literal. *)
Lemma res_without_block_literal newRegExp newFunction i lang key data language
    template :
  _langs i !! lang = Some language →
  strings language !! key = Some template →
  template ≠ "" →
  Forall (λ t, literal_name t = true) (default [] data).*1 →
  test true scriptTemplate
    (foldl (substitute_literal (default [] data)) template (default [] data).*1)
    = false →
  res newRegExp newFunction (Some i) lang key data =
    Ok (finish (foldl (substitute_literal (default [] data)) template
                  (default [] data).*1)).
Proof.
  intros Hl Hk Hne Hlit Ht.
  apply (res_without_block _ _ _ _ _ _ _ _ _ Hl Hk Hne); [|done].
  by apply substitute_all_literal.
Qed.

(** C3, as stated, fails: without [score] the line is not removed, its text
    [Score: ] and its line feed stay. *)
Lemma optional_token_line_is_kept :
  res (regexps []) (host []) (one_string "en_us" "SCORE" score_template)
    "en_us" "SCORE" None
    = Ok ("Score: " +:+ nl)
  ∧ res (regexps []) (host []) (one_string "en_us" "SCORE" score_template)
      "en_us" "SCORE" (Some [("score", str "")]) ≠ Ok "".
Proof. split; [vm_compute; reflexivity | vm_compute; discriminate]. Qed.

(** C3, amended. For the template ["Score: {{ score?}}\n"], a data bag that
    does not supply [score] (no bag, an empty bag, [score] empty or
    [undefined]) resolves to ["Score: \n"]: only the marker is removed, since
    it does not open its line. With [score = "10"] the result is
    ["Score: 10\n"]. A marker that opens its line, as in ["{{ score?}}\n"],
    is removed together with that line. *)
Theorem res_optional_token newRegExp newFunction (i : Lang) (lang key : string)
    (language alone : Language) :
  _langs i !! lang = Some language →
  strings language !! key = Some score_template →
  (∀ data, data ∈ [None; Some []; Some [("score", str "")];
                   Some [("score", undefined)]] →
     res newRegExp newFunction (Some i) lang key data = Ok ("Score: " +:+ nl))
  ∧ res newRegExp newFunction (Some i) lang key (Some [("score", str "10")])
    = Ok ("Score: 10" +:+ nl)
  ∧ (strings alone !! key = Some ("{{ score?}}" +:+ nl) →
     res newRegExp newFunction (Some (set_langs i (<[lang := alone]> (_langs i))))
       lang key None = Ok "").
Proof.
  intros Hl Hk. split; [|split].
  - intros data Hd.
    rewrite (res_without_block_literal _ _ _ _ _ _ _ _ Hl Hk); [| done | |];
      repeat (apply elem_of_cons in Hd as [-> | Hd]);
      try (by apply elem_of_nil in Hd);
      first [ vm_compute; reflexivity | repeat constructor ].
  - rewrite (res_without_block_literal _ _ _ _ _ _ _ _ Hl Hk); [| done | |];
      first [ vm_compute; reflexivity | repeat constructor ].
  - intros Ha.
    rewrite (res_without_block_literal _ _ (set_langs i (<[lang := alone]> (_langs i)))
               lang key None alone _ (lookup_insert_eq _ _ _) Ha); [| done | |];
      first [ vm_compute; reflexivity | repeat constructor ].
Qed.

Lemma res_optional_token_witness :
  res (regexps []) (host []) (one_string "en_us" "SCORE" score_template)
    "en_us" "SCORE" (Some [("score", str "10")]) = Ok ("Score: 10" +:+ nl).
Proof.
  refine (proj1 (proj2 (res_optional_token (regexps []) (host [])
            (set_langs empty_instance
               {[ "en_us" := {| name := "en_us";
                                strings := {[ "SCORE" := score_template ]} |} ]})
            "en_us" "SCORE"
            {| name := "en_us"; strings := {[ "SCORE" := score_template ]} |}
            {| name := "en_us"; strings := ∅ |} _ _)));
    vm_compute; reflexivity.
Defined.

(** ** The resolver: script blocks *)

Lemma match_all_from_exec m r pv s :
  match_all_from m r pv 0 s ≠ [] → is_Some (exec_from m r pv s).
Proof.
  revert pv. induction s as [|c s IH]; intros pv; simpl.
  - destruct (here m r pv "") eqn:E; [eauto | done].
  - destruct (here m r pv (String c s)) eqn:E; [eauto | apply IH].
Qed.

Lemma match_all_test m r s :
  match_all m r s ≠ [] → test m r s = true.
Proof.
  intros H. unfold test. apply bool_decide_eq_true.
  by apply match_all_from_exec.
Qed.

Lemma scripts_with_blocks newFunction lang key data loadedString blocks :
  match_all true scriptTemplate loadedString = blocks →
  blocks ≠ [] →
  scripts newFunction lang key data loadedString =
    script_loop newFunction lang key data loadedString blocks.
Proof.
  intros <- Hne. unfold scripts. by rewrite match_all_test.
Qed.

Lemma script_loop_app newFunction lang key data loadedString pre post :
  script_loop newFunction lang key data loadedString (pre ++ post) =
    (s ← script_loop newFunction lang key data loadedString pre;
     script_loop newFunction lang key data s post).
Proof.
  revert loadedString. induction pre as [|b pre IH]; intros s; simpl; [done|].
  destruct (script_step newFunction lang key data s b); simpl; [apply IH | done].
Qed.

(** A runtime fault of the first evaluation ends the step with the error of
    line 572. *)
Lemma script_step_fault newFunction lang key data loadedString scriptData
    functionBody script err :
  functionBodyOf scriptData = Ok functionBody →
  newFunction functionBody = inr script →
  script data {| loader_lang := lang; loader_args := data |} = Raise err →
  script_step newFunction lang key data loadedString scriptData =
    Throw (Error ("in embedded localization script for: "
                  +:+ lang +:+ "::" +:+ key +:+ nl +:+ err)).
Proof.
  intros Hb Hn Hs. unfold script_step, evaluate. rewrite Hb. simpl.
  by rewrite Hn, Hs.
Qed.

Lemma script_step_value newFunction lang key data loadedString scriptData
    functionBody script v :
  functionBodyOf scriptData = Ok functionBody →
  newFunction functionBody = inr script →
  script data {| loader_lang := lang; loader_args := data |} = Return v →
  script_step newFunction lang key data loadedString scriptData =
    Ok (replace_text scriptData
          (λ _, replacement scriptData
                  match v with
                  | undefined =>
                      coerce_return newFunction functionBody data
                        {| loader_lang := lang; loader_args := data |}
                  | _ => v
                  end)
          loadedString).
Proof.
  intros Hb Hn Hs. unfold script_step, evaluate, replacement. rewrite Hb. simpl.
  rewrite Hn, Hs. simpl.
  by destruct (test false ownLineScript scriptData && _).
Qed.

(** A fault of the retry is dropped: the block counts as having given no
    value. *)
Lemma coerce_return_fault newFunction functionBody data loader retry err :
  newFunction (implicit_return functionBody) = inr retry →
  retry data loader = Raise err →
  coerce_return newFunction functionBody data loader = undefined.
Proof. intros Hn Hr. unfold coerce_return. by rewrite Hn, Hr. Qed.

(** C2, as stated, fails for the retry: here the first evaluation returns
    nothing, the retry throws, and the resolution returns a text. *)
Lemma retry_fault_is_swallowed :
  res (regexps [])
    (host [("function f() { throw 'boom' }" +:+ nl +:+ "(0)", Return undefined);
           ("return function f() { throw 'boom' }" +:+ nl +:+ "(0)", Raise "boom")])
    (one_string "en_us" "K"
       ("{{!function f() { throw 'boom' }" +:+ nl +:+ "(0)!}}"))
    "en_us" "K" None
  = Ok "undefined".
Proof. vm_compute. reflexivity. Qed.

(** C2, amended. When the first evaluation of a block raises a runtime fault
    (the tokens having been substituted, and the blocks before it replaced,
    without an error), the resolution fails with an [Error] whose message
    names the language and the key and carries the fault; no text is
    returned. A fault raised by the implicit-return retry is caught and
    dropped, and the block is replaced as one that gave no value. *)
Theorem res_script_fault newRegExp newFunction (i : Lang) (lang key : string)
    (data : TemplateData) (language : Language) (template substituted : string)
    (pre post : list string) (scriptData loadedString functionBody : string)
    (script : Script) :
  _langs i !! lang = Some language →
  strings language !! key = Some template →
  template ≠ "" →
  substitute_all newRegExp data template data.*1 = Ok substituted →
  match_all true scriptTemplate substituted = pre ++ scriptData :: post →
  script_loop newFunction lang key data substituted pre = Ok loadedString →
  functionBodyOf scriptData = Ok functionBody →
  newFunction functionBody = inr script →
  (∀ err,
     script data {| loader_lang := lang; loader_args := data |} = Raise err →
     res newRegExp newFunction (Some i) lang key (Some data) =
       Throw (Error ("in embedded localization script for: "
                     +:+ lang +:+ "::" +:+ key +:+ nl +:+ err)))
  ∧ (∀ retry err,
       script data {| loader_lang := lang; loader_args := data |}
         = Return undefined →
       newFunction (implicit_return functionBody) = inr retry →
       retry data {| loader_lang := lang; loader_args := data |} = Raise err →
       script_step newFunction lang key data loadedString scriptData =
         Ok (replace_text scriptData
               (λ _, replacement scriptData undefined) loadedString)).
Proof.
  intros Hl Hk Hne Hsub Hm Hpre Hb Hn. split.
  - intros err Hs.
    rewrite (res_found _ _ _ _ _ _ _ _ Hl Hk Hne).
    change (default [] (Some data)) with data. rewrite Hsub. simpl.
    rewrite (scripts_with_blocks _ _ _ _ _ _ Hm); [| by destruct pre].
    rewrite script_loop_app, Hpre. simpl.
    by rewrite (script_step_fault _ _ _ _ _ _ _ _ _ Hb Hn Hs).
  - intros retry err Hs Hr He.
    rewrite (script_step_value _ _ _ _ _ _ _ _ _ Hb Hn Hs).
    by rewrite (coerce_return_fault _ _ _ _ _ _ Hr He).
Qed.

Lemma res_script_fault_witness :
  res (regexps [])
    (host [(" args.user.name ", Raise "TypeError: args.user is undefined")])
    (one_string "en_us" "K" "Hi {{! args.user.name !}}") "en_us" "K" (Some [])
  = Throw (Error ("in embedded localization script for: en_us::K" +:+ nl
                  +:+ "TypeError: args.user is undefined")).
Proof.
  refine (proj1 (res_script_fault (regexps [])
            (host [(" args.user.name ", Raise "TypeError: args.user is undefined")])
            (set_langs empty_instance
               {[ "en_us" := {| name := "en_us";
                                strings := {[ "K" := "Hi {{! args.user.name !}}" ]} |} ]})
            "en_us" "K" []
            {| name := "en_us"; strings := {[ "K" := "Hi {{! args.user.name !}}" ]} |}
            "Hi {{! args.user.name !}}" "Hi {{! args.user.name !}}"
            [] [] "{{! args.user.name !}}"
            "Hi {{! args.user.name !}}" " args.user.name "
            (λ _ _, Raise "TypeError: args.user is undefined")
            _ _ _ _ _ _ _ _) "TypeError: args.user is undefined" _);
    try (vm_compute; reflexivity).
  discriminate.
Defined.

Lemma script_step_no_value newFunction lang key data loadedString scriptData :
  gives_no_value newFunction lang data scriptData →
  script_step newFunction lang key data loadedString scriptData =
    Ok (replace_text scriptData (λ _, undefined_text scriptData) loadedString).
Proof.
  intros (functionBody & script & retry & Hb & Hn & Hs & Hr & Hv).
  rewrite (script_step_value _ _ _ _ _ _ _ _ _ Hb Hn Hs).
  unfold coerce_return. rewrite Hr, Hv.
  unfold replacement, undefined_text. simpl.
  by destruct (test false ownLineScript scriptData).
Qed.

(** C4, as stated, fails: a block that gives no value is replaced with the
    word [undefined], not with the empty string. *)
Lemma valueless_block_prints_undefined :
  res (regexps [])
    (host [(" void 0 ", Return undefined); ("return void 0 ", Return undefined)])
    (one_string "en_us" "K" "a{{! void 0 !}}b") "en_us" "K" None
  = Ok "aundefinedb".
Proof. vm_compute. reflexivity. Qed.

(** C4, amended. A block both of whose evaluations end without a fault and
    without a value (the tokens having been substituted, and the blocks
    before it replaced, without an error) has the first occurrence of its
    text replaced with the word [undefined], the string conversion of the
    missing value, followed by a line feed when the block was matched
    together with the end of its own line; it is not replaced with the
    empty string. The block does not make the resolution fail: [res]
    succeeds whenever the blocks after it are replaced without an error. *)
Theorem res_block_without_value newRegExp newFunction (i : Lang)
    (lang key : string) (data : TemplateData) (language : Language)
    (template substituted : string) (pre post : list string)
    (scriptData loadedString : string) :
  _langs i !! lang = Some language →
  strings language !! key = Some template →
  template ≠ "" →
  substitute_all newRegExp data template data.*1 = Ok substituted →
  match_all true scriptTemplate substituted = pre ++ scriptData :: post →
  script_loop newFunction lang key data substituted pre = Ok loadedString →
  gives_no_value newFunction lang data scriptData →
  script_step newFunction lang key data loadedString scriptData =
    Ok (replace_text scriptData (λ _, undefined_text scriptData) loadedString)
  ∧ ∀ final,
      script_loop newFunction lang key data
        (replace_text scriptData (λ _, undefined_text scriptData) loadedString)
        post = Ok final →
      res newRegExp newFunction (Some i) lang key (Some data) = Ok (finish final).
Proof.
  intros Hl Hk Hne Hsub Hm Hpre Hb.
  pose proof (script_step_no_value newFunction lang key data loadedString
                scriptData Hb) as Hstep.
  split; [exact Hstep|]. intros final Hpost.
  rewrite (res_found _ _ _ _ _ _ _ _ Hl Hk Hne).
  change (default [] (Some data)) with data. rewrite Hsub. simpl.
  rewrite (scripts_with_blocks _ _ _ _ _ _ Hm); [| by destruct pre].
  rewrite script_loop_app, Hpre. simpl. rewrite Hstep. simpl.
  by rewrite Hpost.
Qed.

Lemma res_block_without_value_witness :
  res (regexps [])
    (host [(" void 0 ", Return undefined); ("return void 0 ", Return undefined)])
    (one_string "en_us" "K" "a{{! void 0 !}}b") "en_us" "K" (Some [])
  = Ok (finish (replace_text "{{! void 0 !}}" (λ _, undefined_text "{{! void 0 !}}")
                  "a{{! void 0 !}}b")).
Proof.
  refine (proj2 (res_block_without_value (regexps [])
            (host [(" void 0 ", Return undefined); ("return void 0 ", Return undefined)])
            (set_langs empty_instance
               {[ "en_us" := {| name := "en_us";
                                strings := {[ "K" := "a{{! void 0 !}}b" ]} |} ]})
            "en_us" "K" []
            {| name := "en_us"; strings := {[ "K" := "a{{! void 0 !}}b" ]} |}
            "a{{! void 0 !}}b" "a{{! void 0 !}}b" [] [] "{{! void 0 !}}"
            "a{{! void 0 !}}b"
            _ _ _ _ _ _ _) _ _);
    try (vm_compute; reflexivity); try discriminate.
  exists " void 0 ", (λ _ _, Return undefined), (λ _ _, Return undefined).
  repeat split; vm_compute; reflexivity.
Defined.

(** C9 on the template [{{! return 'a' !}}-{{! return 'b' !}}]. The greedy
    [[\s\S]+] runs to the last closing marker: the two blocks are matched as
    one, whose body is the text between the first opening and the last
    closing marker, and that one body is what every script host is given.
    With a host that knows the two bodies and rejects any other text, the
    resolution throws instead of giving [a-b]. *)
Theorem two_inline_blocks_are_matched_as_one :
  match_all true scriptTemplate "{{! return 'a' !}}-{{! return 'b' !}}"
    = ["{{! return 'a' !}}-{{! return 'b' !}}"]
  ∧ functionBodyOf "{{! return 'a' !}}-{{! return 'b' !}}"
    = Ok " return 'a' !}}-{{! return 'b' "
  ∧ (∀ newRegExp newFunction,
       res newRegExp newFunction
         (one_string "en_us" "K" "{{! return 'a' !}}-{{! return 'b' !}}")
         "en_us" "K" None
       = (s ← script_step newFunction "en_us" "K" []
                "{{! return 'a' !}}-{{! return 'b' !}}"
                "{{! return 'a' !}}-{{! return 'b' !}}";
          Ok (finish s)))
  ∧ res (regexps [])
      (host [(" return 'a' ", Return (str "a"));
             (" return 'b' ", Return (str "b"))])
      (one_string "en_us" "K" "{{! return 'a' !}}-{{! return 'b' !}}")
      "en_us" "K" None
    = Throw (SyntaxError "Unexpected token").
Proof.
  split; [vm_compute; reflexivity|].
  split; [vm_compute; reflexivity|].
  split; [| vm_compute; reflexivity].
  intros newRegExp newFunction. unfold one_string.
  rewrite (res_without_data newRegExp newFunction _ "en_us" "K"
             {| name := "en_us";
                strings := {[ "K" := "{{! return 'a' !}}-{{! return 'b' !}}" ]} |}
             "{{! return 'a' !}}-{{! return 'b' !}}");
    [| vm_compute; reflexivity | vm_compute; reflexivity | discriminate].
  rewrite (scripts_with_blocks _ _ _ _ _
             ["{{! return 'a' !}}-{{! return 'b' !}}"]);
    [| vm_compute; reflexivity | discriminate].
  simpl. by destruct (script_step _ _ _ _ _ _).
Qed.

(** ** Command help text *)

Lemma or_default_rule (l : option string) (d : string) :
  per_field_fallback l d (Some (or_default l d)).
Proof.
  split.
  - intros s -> Hs. destruct s; [done | reflexivity].
  - intros [-> | ->]; reflexivity.
Qed.

(** C6. For a [Command] and a language, each of [desc], [info] and [usage]
    of the returned record is the localized value of that field for the
    command's name and the language when it is present and not empty, and
    the command's own value otherwise; without an entry for the language the
    record holds exactly the command's own three values. *)
Theorem getCommandInfo_per_field (i : Lang) (command : Command) (lang : string) :
  ∃ r, getCommandInfo (Some i) (a_command command) lang = Ok r
       ∧ per_field_fallback (localized i command lang desc) (cmd_desc command) (desc r)
       ∧ per_field_fallback (localized i command lang info) (cmd_info command) (info r)
       ∧ per_field_fallback (localized i command lang usage) (cmd_usage command) (usage r)
       ∧ (getNestedValue (_commandInfo i) (cmd_name command) lang = None →
          r = {| desc := Some (cmd_desc command); info := Some (cmd_info command);
                 usage := Some (cmd_usage command) |}).
Proof.
  eexists. split; [reflexivity|].
  assert (∀ f, getNestedValue (_commandInfo i) (cmd_name command) lang ≫= f
               = localized i command lang f) as Hloc.
  { intros f. unfold getNestedValue, localized.
    by destruct (_commandInfo i !! cmd_name command). }
  cbn [desc info usage]. rewrite !Hloc.
  split_and!; try apply or_default_rule.
  intros Hnone. unfold localized, getNestedValue in *.
  destruct (_commandInfo i !! cmd_name command) as [byLang|]; simpl in *;
    [by rewrite Hnone | done].
Qed.

Lemma getCommandInfo_per_field_witness :
  ∃ r, getCommandInfo (Some with_help) (a_command ping) "fr" = Ok r
       ∧ desc r = Some "Salut" ∧ info r = Some "I" ∧ usage r = Some "U".
Proof.
  destruct (getCommandInfo_per_field with_help ping "fr")
    as (r & Hr & Hd & Hi & Hu & _).
  exists r. split; [exact Hr|]. split_and!.
  - apply (proj1 Hd); [vm_compute; reflexivity | discriminate].
  - apply (proj2 Hi). right. vm_compute. reflexivity.
  - apply (proj2 Hu). left. vm_compute. reflexivity.
Defined.

(** ** Construction *)

(** C7, as stated, fails: a second [createInstance] returns normally. *)
Lemma second_createInstance_is_silent :
  (st ← createInstance None no_client; createInstance st no_client)
    = Ok (Some empty_instance)
  ∧ ∀ e, createInstance (Some empty_instance) no_client ≠ Throw e.
Proof. split; [reflexivity | discriminate]. Qed.

(** C7, amended. Once the instance exists, [createInstance] with any client
    returns without an error and leaves the instance as it was; the
    constructor itself, which only [createInstance] calls, throws when the
    instance exists. In neither way is the existing state replaced. *)
Theorem createInstance_keeps_instance (i : Lang) (client : Client) :
  createInstance (Some i) client = Ok (Some i)
  ∧ constructor (Some i) client =
      Throw (Error
        "Cannot create multiple instances of Lang singleton. Use Lang.createInstance() instead").
Proof. split; reflexivity. Qed.

(** ** Loading help text *)

Lemma postLoad_keeps_tables (i : Lang) :
  ∃ client, postLoad (Some i) = Ok (Some (set_client i client)).
Proof.
  unfold postLoad. simpl.
  destruct (_ && _).
  - eauto.
  - exists (_client i). by destruct i.
Qed.

(** C8, as stated, fails for group descriptions: when the reserved file does
    not parse, the call throws. *)
Lemma group_parse_failure_aborts :
  loadGroupLocalizationsFrom
    (disk [text_file "/cmds/commandgroups.lang.json" "{"])
    (Some empty_instance) "/cmds"
  = Throw (Error ("Failed to load group localizations from '/cmds/commandgroups.lang.json:"
                  +:+ nl +:+ "SyntaxError")).
Proof. vm_compute. reflexivity. Qed.

(** C8, amended. In [loadCommandLocalizationsFrom], a discovered file that
    does not parse is skipped: the call returns normally, and the help table
    it leaves is the one obtained by merging the files found before it and
    then the files found after it. In [loadGroupLocalizationsFrom], a
    reserved file that does not parse makes the call throw an [Error] that
    names the file. *)
Theorem parse_failure_in_help_loading (fs : FileSystem) (i : Lang)
    (dir : string) (pre post : list string) (bad err : string) :
  glob_sync fs (resolve fs dir +:+ "/**/*.lang.json") = pre ++ bad :: post →
  require_commands fs bad = inl err →
  (∃ client,
     loadCommandLocalizationsFrom fs (Some i) dir =
       Ok (Some (set_client
                   (set_commandInfo i
                      (foldl (load_command_file fs)
                         (foldl (load_command_file fs) (_commandInfo i) pre)
                         post))
                   client)))
  ∧ (∀ filePath others stack,
       glob_sync fs (resolve fs dir +:+ "/**/commandgroups.lang.json")
         = filePath :: others →
       filePath ≠ "" →
       require_groups fs filePath = inl stack →
       loadGroupLocalizationsFrom fs (Some i) dir =
         Throw (Error ("Failed to load group localizations from '"
                       +:+ filePath +:+ ":" +:+ nl +:+ stack))).
Proof.
  intros Hglob Hbad. split.
  - unfold loadCommandLocalizationsFrom. simpl. rewrite Hglob.
    rewrite bool_decide_eq_false_2 by (rewrite length_app; simpl; lia).
    rewrite foldl_app. simpl.
    assert (load_command_file fs (foldl (load_command_file fs) (_commandInfo i) pre) bad
            = foldl (load_command_file fs) (_commandInfo i) pre) as ->.
    { unfold load_command_file. rewrite Hbad. by destruct (test _ _ _). }
    apply postLoad_keeps_tables.
  - intros filePath others stack Hg Hne Hr.
    unfold loadGroupLocalizationsFrom. simpl. rewrite Hg, Hr.
    destruct filePath; [done | reflexivity].
Qed.

Lemma parse_failure_in_help_loading_witness :
  ∃ client,
    loadCommandLocalizationsFrom (disk help_files) (Some empty_instance) "/cmds"
    = Ok (Some (set_client
                  (set_commandInfo empty_instance
                     {[ "ping" := {[ "fr" := help_fr ]};
                        "pong" := {[ "fr" := help_fr ]} ]})
                  client)).
Proof.
  destruct (parse_failure_in_help_loading (disk help_files) empty_instance "/cmds"
              ["/cmds/ping.lang.json"] ["/cmds/pong.lang.json"]
              "/cmds/broken.lang.json" "SyntaxError")
    as [[client H] _]; [vm_compute; reflexivity | vm_compute; reflexivity |].
  exists client. rewrite H. vm_compute. reflexivity.
Defined.

(** ** Loading string tables *)

Section Merging.
Context {V : Type}.
Implicit Types (init t : gmap string V) (tables : list (gmap string V)).

Lemma merged_keeps_later init tables K v :
  init !! K = Some v →
  Forall (λ t, t !! K = None) tables →
  merged init tables !! K = Some v.
Proof.
  intros Hi Hall. revert init Hi.
  induction Hall as [|t tables Ht _ IH]; intros init Hi; simpl; [done|].
  apply IH. by rewrite lookup_union_r.
Qed.

(** The last table that defines a key gives its value. *)
Lemma merged_last_wins init pre t post K v :
  t !! K = Some v →
  Forall (λ t', t' !! K = None) post →
  merged init (pre ++ t :: post) !! K = Some v.
Proof.
  intros Ht Hpost. unfold merged. rewrite foldl_app. simpl.
  apply merged_keeps_later; [| done].
  by apply lookup_union_Some_l.
Qed.

End Merging.

Lemma files_of_push L n f G :
  files_of L (push n f G) =
    if bool_decide (n = L) then files_of L G ++ [f] else files_of L G.
Proof.
  induction G as [|[n' files] G IH]; simpl.
  - by destruct (bool_decide (n = L)).
  - destruct (bool_decide (n' = n)) eqn:E; simpl.
    + apply bool_decide_eq_true in E as ->.
      by destruct (bool_decide (n = L)).
    + destruct (bool_decide (n' = L)) eqn:E'; simpl; [| exact IH].
      apply bool_decide_eq_false in E. apply bool_decide_eq_true in E'.
      subst. rewrite bool_decide_eq_false_2; [done | congruence].
Qed.

Lemma push_keys n f G :
  (push n f G).*1 = if bool_decide (n ∈ G.*1) then G.*1 else G.*1 ++ [n].
Proof.
  induction G as [|[n' files] G IH]; [done|].
  cbn [push]. destruct (bool_decide (n' = n)) eqn:E; rewrite !fmap_cons; cbn [fst].
  - apply bool_decide_eq_true in E as ->.
    rewrite bool_decide_eq_true_2; [done | apply list_elem_of_here].
  - apply bool_decide_eq_false in E. rewrite IH.
    destruct (bool_decide (n ∈ G.*1)) eqn:E'.
    + apply bool_decide_eq_true in E'.
      rewrite bool_decide_eq_true_2; [done | by apply list_elem_of_further].
    + apply bool_decide_eq_false in E'.
      rewrite bool_decide_eq_false_2; [done|].
      intros [?|?]%elem_of_cons; congruence.
Qed.

Lemma grouped_snoc files f :
  grouped (files ++ [f]) =
    match langNameOf f with
    | None => grouped files
    | Some langName => push langName f (grouped files)
    end.
Proof. unfold grouped. by rewrite foldl_app. Qed.

(** A language is given the files that carry its name, in their order. *)
Lemma files_of_group L files :
  files_of L (grouped files)
    = filter (λ f, langNameOf f = Some L) files.
Proof.
  induction files as [|f files IH] using rev_ind; [done|].
  rewrite grouped_snoc, filter_app, <- IH.
  rewrite filter_cons, filter_nil.
  destruct (langNameOf f) as [n|] eqn:E.
  - rewrite files_of_push.
    destruct (decide (n = L)) as [->|Hne].
    + rewrite bool_decide_eq_true_2 by done. by rewrite decide_True.
    + rewrite bool_decide_eq_false_2 by done.
      rewrite decide_False by congruence. by rewrite app_nil_r.
  - rewrite decide_False by congruence. by rewrite app_nil_r.
Qed.

Lemma grouped_NoDup files :
  NoDup (grouped files).*1.
Proof.
  induction files as [|f files IH] using rev_ind; [constructor|].
  rewrite grouped_snoc.
  destruct (langNameOf f) as [n|]; [| done].
  rewrite push_keys.
  destruct (bool_decide (n ∈ (grouped files).*1)) eqn:E; [done|].
  apply bool_decide_eq_false in E.
  apply NoDup_app. split_and!; [done | | apply NoDup_singleton].
  intros x Hx ->%list_elem_of_singleton. done.
Qed.

(** The languages of the groups are those of the files. *)
Lemma grouped_keys L files :
  L ∈ (grouped files).*1 ↔ ∃ f, f ∈ files ∧ langNameOf f = Some L.
Proof.
  induction files as [|f files IH] using rev_ind.
  - split; [by intros ?%elem_of_nil | by intros (f & ?%elem_of_nil & _)].
  - rewrite grouped_snoc. split.
    + destruct (langNameOf f) as [n|] eqn:E.
      * rewrite push_keys.
        destruct (bool_decide (n ∈ (grouped files).*1)).
        -- intros (f' & Hin & Hn)%IH. exists f'. split; [|done].
           apply elem_of_app. by left.
        -- intros [(f' & Hin & Hn)%IH | ->%list_elem_of_singleton]%elem_of_app.
           ++ exists f'. split; [|done]. apply elem_of_app. by left.
           ++ exists f. split; [|done]. apply elem_of_app. right.
              apply list_elem_of_here.
      * intros (f' & Hin & Hn)%IH. exists f'. split; [|done].
        apply elem_of_app. by left.
    + intros (f' & [Hin | ->%list_elem_of_singleton]%elem_of_app & Hn).
      * assert (L ∈ (grouped files).*1) as HL by (apply IH; eauto).
        destruct (langNameOf f) as [n|]; [|done].
        rewrite push_keys.
        destruct (bool_decide (n ∈ (grouped files).*1)); [done|].
        apply elem_of_app. by left.
      * rewrite Hn, push_keys.
        destruct (bool_decide (L ∈ (grouped files).*1)) eqn:E.
        -- by apply bool_decide_eq_true in E.
        -- apply elem_of_app. right. apply list_elem_of_here.
Qed.

Lemma files_of_absent L G : L ∉ G.*1 → files_of L G = [].
Proof.
  induction G as [|[n files] G IH]; [done|].
  rewrite fmap_cons. intros H%not_elem_of_cons. destruct H as [Hne H].
  cbn [files_of]. rewrite bool_decide_eq_false_2 by (intros E; by apply Hne). by apply IH.
Qed.

Lemma files_of_elem L files G :
  NoDup G.*1 → (L, files) ∈ G → files_of L G = files.
Proof.
  induction G as [|[n files'] G IH]; [by intros _ ?%elem_of_nil|].
  rewrite fmap_cons. intros [Hn Hnd]%NoDup_cons [E|Hin]%elem_of_cons.
  - injection E as -> ->. cbn [files_of]. by rewrite bool_decide_eq_true_2.
  - cbn [files_of]. rewrite bool_decide_eq_false_2; [by apply IH|].
    intros ->. apply Hn. apply list_elem_of_fmap. by exists (L, files).
Qed.

Lemma files_of_Permutation L G G' :
  NoDup G.*1 → G ≡ₚ G' → files_of L G = files_of L G'.
Proof.
  intros Hnd Hp.
  assert (NoDup G'.*1) as Hnd' by (by rewrite <- Hp).
  destruct (decide (L ∈ G.*1)) as [Hin|Hout].
  - apply list_elem_of_fmap in Hin as ([n files] & -> & Hin).
    rewrite (files_of_elem _ files G) by done.
    symmetry. apply files_of_elem; [done|]. by rewrite <- Hp.
  - rewrite (files_of_absent L G) by done.
    symmetry. apply files_of_absent. by rewrite <- Hp.
Qed.

(** Every file of a group carries the name of the group and is one of the
    discovered files. *)
Lemma grouped_files files n fl f :
  (n, fl) ∈ grouped files → f ∈ fl → langNameOf f = Some n ∧ f ∈ files.
Proof.
  intros Hg Hf.
  rewrite <- (files_of_elem n fl (grouped files)) in Hf
    by (apply grouped_NoDup || done).
  rewrite files_of_group in Hf.
  apply list_elem_of_filter in Hf as [? ?]. done.
Qed.

(** [Object.keys] lists every property once. *)
Lemma Object_entries_Permutation {V} (o : list (string * V)) :
  Object_entries o ≡ₚ o.
Proof.
  unfold Object_entries. rewrite merge_sort_Permutation.
  apply filter_app_complement.
Qed.

Section LoaderFacts.
Variable fs : FileSystem.
Variable parseFile : string → string → result Language.

Lemma merge_file_lookup n store f L :
  merge_file fs parseFile n store f !! L =
    if bool_decide (n = L) then load_entry fs parseFile n (store !! L) f
    else store !! L.
Proof.
  unfold merge_file, load_entry.
  destruct (decide (n = L)) as [->|Hne].
  - rewrite bool_decide_eq_true_2 by done.
    destruct (negb _); [done|].
    destruct (store !! L); by rewrite lookup_insert_eq.
  - rewrite bool_decide_eq_false_2 by done.
    destruct (negb _); [done|].
    destruct (store !! n); by rewrite lookup_insert_ne.
Qed.

Lemma merge_files_lookup n store files L :
  foldl (merge_file fs parseFile n) store files !! L =
    if bool_decide (n = L)
    then foldl (load_entry fs parseFile n) (store !! L) files
    else store !! L.
Proof.
  revert store. induction files as [|f files IH]; intros store; simpl.
  - by destruct (bool_decide (n = L)).
  - rewrite IH, merge_file_lookup. by destruct (bool_decide (n = L)).
Qed.

(** After the loop over the groups, the entry of a language is its former
    entry with the files of its group loaded into it. *)
Lemma merge_groups_lookup G store L :
  NoDup G.*1 →
  foldl (λ store g, foldl (merge_file fs parseFile g.1) store g.2) store G !! L
    = foldl (load_entry fs parseFile L) (store !! L) (files_of L G).
Proof.
  revert store. induction G as [|[n files] G IH]; intros store Hnd; [done|].
  rewrite fmap_cons in Hnd. apply NoDup_cons in Hnd as [Hn Hnd].
  cbn [foldl files_of fst snd]. rewrite IH by done.
  rewrite merge_files_lookup.
  destruct (decide (n = L)) as [->|Hne].
  - rewrite bool_decide_eq_true_2 by done.
    by rewrite (files_of_absent L G).
  - by rewrite bool_decide_eq_false_2.
Qed.

(** The store that the loop over the groups leaves does not depend on the
    order in which the languages are taken. *)
Lemma merge_groups_order G G' store :
  NoDup G.*1 → G ≡ₚ G' →
  foldl (λ store g, foldl (merge_file fs parseFile g.1) store g.2) store G
  = foldl (λ store g, foldl (merge_file fs parseFile g.1) store g.2) store G'.
Proof.
  intros Hnd Hp. apply map_eq. intros L.
  rewrite !merge_groups_lookup; [| by rewrite <- Hp | done].
  by rewrite (files_of_Permutation L G G').
Qed.

Lemma langNameOf_test f L :
  langNameOf f = Some L → test false langNameRegex f = true.
Proof.
  unfold langNameOf, test. intros H. apply bool_decide_eq_true.
  destruct (exec false langNameRegex f); [eauto | done].
Qed.

(** Loading files of the language one after the other merges their
    fragments, the later one first. *)
Lemma load_entries L init files :
  Forall (λ f, langNameOf f = Some L) files →
  files ≠ [] →
  ∃ language,
    foldl (load_entry fs parseFile L) init files = Some language
    ∧ strings language =
        merged (from_option strings ∅ init)
          (strings <$> (parsed fs parseFile L <$> files)).
Proof.
  intros Hall. revert init.
  induction Hall as [|f files Hf Hall IH]; intros init Hne; [done|].
  cbn [foldl]. unfold load_entry at 2.
  rewrite (langNameOf_test _ _ Hf). cbn [negb].
  destruct files as [|f' files].
  - eexists. split; [reflexivity|]. unfold merged. simpl.
    destruct init; simpl; [done|]. by rewrite (right_id_L ∅ (∪)).
  - destruct (IH (Some match init with
                       | Some language => concat language (parsed fs parseFile L f)
                       | None => parsed fs parseFile L f
                       end)) as (language & Hl & Hs); [done|].
    exists language. split; [exact Hl|]. rewrite Hs.
    unfold merged. rewrite !fmap_cons. cbn [foldl from_option].
    destruct init; simpl; [done|]. by rewrite (right_id_L ∅ (∪)).
Qed.

Lemma postLoad_keeps_langs i :
  ∃ i', postLoad (Some i) = Ok (Some i') ∧ _langs i' = _langs i.
Proof.
  destruct (postLoad_keeps_tables i) as [client H]. eauto.
Qed.

(** What makes a file loadable. *)
Lemma loadable_inv f n :
  loadable fs parseFile f = true →
  langNameOf f = Some n →
  inherited n = false
  ∧ ∃ text fragment,
      text_of fs f = Ok text ∧ parseFile n text = Ok fragment
      ∧ parsed fs parseFile n f = fragment.
Proof.
  unfold loadable, parsed. intros H Hn. rewrite Hn in H.
  apply andb_true_iff in H as [Hi H]. apply negb_true_iff in Hi.
  split; [done|].
  destruct (text_of fs f) as [text|e]; simpl in *; [|done].
  destruct (parseFile n text) as [fragment|e] eqn:E; [|done].
  by exists text, fragment.
Qed.

(** The grouping of loadable files ends without an exception. *)
Lemma group_by_language_loadable G files :
  Forall (λ f, loadable fs parseFile f = true) files →
  group_by_language G files =
    Ok (foldl (λ langs langFile,
                 match langNameOf langFile with
                 | None => langs
                 | Some langName => push langName langFile langs
                 end) G files).
Proof.
  intros Hall. revert G.
  induction Hall as [|f files Hf _ IH]; intros G; [done|].
  cbn [group_by_language foldl].
  destruct (langNameOf f) as [n|] eqn:E; [|apply IH].
  destruct (loadable_inv f n Hf E) as [-> _]. apply IH.
Qed.

Lemma load_file_loadable n store f :
  langNameOf f = Some n →
  loadable fs parseFile f = true →
  load_file fs parseFile n store f = (merge_file fs parseFile n store f, None).
Proof.
  intros Hn Hf.
  destruct (loadable_inv f n Hf Hn) as (_ & text & fragment & Ht & Hp & Hfr).
  unfold load_file, merge_file. rewrite Ht, Hp, Hfr.
  by destruct (negb _).
Qed.

Lemma load_files_loadable n store files :
  Forall (λ f, langNameOf f = Some n ∧ loadable fs parseFile f = true) files →
  load_files fs parseFile n store files =
    (foldl (merge_file fs parseFile n) store files, None).
Proof.
  intros Hall. revert store.
  induction Hall as [|f files [Hn Hf] _ IH]; intros store; [done|].
  cbn [load_files foldl]. rewrite load_file_loadable by done. apply IH.
Qed.

Lemma load_languages_loadable store G :
  Forall (λ g, Forall (λ f, langNameOf f = Some g.1
                            ∧ loadable fs parseFile f = true) g.2) G →
  load_languages fs parseFile store G =
    (foldl (λ store g, foldl (merge_file fs parseFile g.1) store g.2) store G,
     None).
Proof.
  intros Hall. revert store.
  induction Hall as [|[n fl] G Hg _ IH]; intros store; [done|].
  cbn [load_languages foldl fst snd]. rewrite load_files_loadable by done.
  apply IH.
Qed.

(** [loadLocalizationsFrom] over loadable files returns, with what
    [postLoad] makes of the state in which the groups are merged. *)
Lemma loadLocalizationsFrom_returns i dir :
  glob_sync fs (resolve fs dir +:+ "/**/*.lang") ≠ [] →
  Forall (λ f, loadable fs parseFile f = true)
    (glob_sync fs (resolve fs dir +:+ "/**/*.lang")) →
  ∃ st',
    postLoad
      (Some (set_langs i
               (foldl (λ store g, foldl (merge_file fs parseFile g.1) store g.2)
                  (_langs i)
                  (grouped (glob_sync fs (resolve fs dir +:+ "/**/*.lang"))))))
      = Ok st'
    ∧ loadLocalizationsFrom fs parseFile (Some i) dir = (st', None).
Proof.
  intros Hne Hall. unfold loadLocalizationsFrom.
  set (files := glob_sync fs (resolve fs dir +:+ "/**/*.lang")) in *.
  rewrite bool_decide_eq_false_2 by (by destruct files).
  rewrite (group_by_language_loadable [] files Hall). fold (grouped files).
  rewrite load_languages_loadable.
  - rewrite (merge_groups_order (Object_entries (grouped files)) (grouped files)).
    + destruct (postLoad_keeps_tables
                  (set_langs i
                     (foldl (λ store g, foldl (merge_file fs parseFile g.1) store g.2)
                        (_langs i) (grouped files)))) as [client ->].
      eauto.
    + rewrite Object_entries_Permutation. apply grouped_NoDup.
    + apply Object_entries_Permutation.
  - apply Forall_forall. intros [n fl] Hg.
    rewrite Object_entries_Permutation in Hg.
    apply Forall_forall. intros f Hf.
    destruct (grouped_files files n fl f Hg Hf) as [Hn Hin].
    split; [done|]. by apply (proj1 (Forall_forall _ _) Hall).
Qed.

(** The state after [loadLocalizationsFrom] when every discovered file is
    loadable: no exception, and the store is the one that merging the
    groups gives. *)
Lemma loadLocalizationsFrom_store i dir :
  glob_sync fs (resolve fs dir +:+ "/**/*.lang") ≠ [] →
  Forall (λ f, loadable fs parseFile f = true)
    (glob_sync fs (resolve fs dir +:+ "/**/*.lang")) →
  ∃ client,
    loadLocalizationsFrom fs parseFile (Some i) dir =
      (Some (set_client
               (set_langs i
                  (foldl (λ store g, foldl (merge_file fs parseFile g.1) store g.2)
                     (_langs i)
                     (grouped (glob_sync fs (resolve fs dir +:+ "/**/*.lang")))))
               client), None).
Proof.
  intros Hne Hall.
  destruct (loadLocalizationsFrom_returns i dir Hne Hall) as (st' & Hp & ->).
  destruct (postLoad_keeps_tables
              (set_langs i
                 (foldl (λ store g, foldl (merge_file fs parseFile g.1) store g.2)
                    (_langs i)
                    (grouped (glob_sync fs (resolve fs dir +:+ "/**/*.lang"))))))
    as [client Hc].
  rewrite Hc in Hp. injection Hp as <-. by exists client.
Qed.

Lemma fragments_app L files files' :
  fragments fs parseFile L (files ++ files') =
    fragments fs parseFile L files ++ fragments fs parseFile L files'.
Proof. unfold fragments. by rewrite filter_app, fmap_app. Qed.

Lemma fragments_cons L f files :
  langNameOf f = Some L →
  fragments fs parseFile L (f :: files) =
    parsed fs parseFile L f :: fragments fs parseFile L files.
Proof. intros H. unfold fragments. by rewrite filter_cons, decide_True. Qed.

(** The table of a language after [loadLocalizationsFrom]: its former table
    with the fragments of the discovered files of that language merged in,
    in the order of discovery. *)
Lemma loadLocalizationsFrom_table i dir L :
  Forall (λ f, loadable fs parseFile f = true)
    (glob_sync fs (resolve fs dir +:+ "/**/*.lang")) →
  fragments fs parseFile L (glob_sync fs (resolve fs dir +:+ "/**/*.lang")) ≠ [] →
  ∃ i' language,
    loadLocalizationsFrom fs parseFile (Some i) dir = (Some i', None)
    ∧ _langs i' !! L = Some language
    ∧ strings language =
        merged (from_option strings ∅ (_langs i !! L))
          (strings <$> fragments fs parseFile L
                         (glob_sync fs (resolve fs dir +:+ "/**/*.lang"))).
Proof.
  intros Hall Hne.
  set (files := glob_sync fs (resolve fs dir +:+ "/**/*.lang")) in *.
  assert (files ≠ []) as Hfiles by (intros E; by rewrite E in Hne).
  destruct (loadLocalizationsFrom_store i dir Hfiles Hall) as [client Hload].
  fold files in Hload.
  destruct (load_entries L (_langs i !! L)
              (filter (λ f, langNameOf f = Some L) files))
    as (language & Hl & Hs).
  { apply Forall_forall. by intros f [? _]%list_elem_of_filter. }
  { intros E. apply Hne. unfold fragments. by rewrite E. }
  eexists _, language. split; [exact Hload|]. cbn [_langs set_client set_langs].
  rewrite merge_groups_lookup by apply grouped_NoDup.
  by rewrite files_of_group.
Qed.
End LoaderFacts.

Section Revision1Facts.
Import Revision1.
Variable glob_sync : string → list string.
Variable require : string → exn + gmap string string.

Lemma load_files_lookup_1 langs files L :
  Forall (λ f, ∃ t, require f = inr t) files →
  (Revision1.load_files require langs files).2 = None
  ∧ (Revision1.load_files require langs files).1 !! L =
      foldl merge_table (langs !! L) (tables require L files).
Proof.
  intros Hall. revert langs.
  induction Hall as [|f files [t Ht] _ IH]; intros langs; [done|].
  unfold tables. cbn [Revision1.load_files omap list_omap]. rewrite Ht.
  destruct (Revision1.langNameOf f) as [n|] eqn:En.
  - destruct (decide (n = L)) as [->|Hne].
    + rewrite bool_decide_eq_true_2 by done.
      destruct (langs !! L) eqn:El.
      * destruct (IH (<[L := t ∪ g]> langs)) as [H1 H2].
        split; [done|]. rewrite H2, lookup_insert_eq. done.
      * destruct (IH (<[L := t]> langs)) as [H1 H2].
        split; [done|]. rewrite H2, lookup_insert_eq. done.
    + rewrite bool_decide_eq_false_2 by congruence.
      destruct (langs !! n) eqn:El.
      * destruct (IH (<[n := t ∪ g]> langs)) as [H1 H2].
        split; [done|]. by rewrite H2, lookup_insert_ne.
      * destruct (IH (<[n := t]> langs)) as [H1 H2].
        split; [done|]. by rewrite H2, lookup_insert_ne.
  - rewrite bool_decide_eq_false_2 by congruence. apply IH.
Qed.

Lemma merge_tables init ts :
  ts ≠ [] →
  foldl merge_table init ts = Some (merged (default ∅ init) ts).
Proof.
  revert init. induction ts as [|t ts IH]; intros init Hne; [done|].
  cbn [foldl]. destruct ts as [|t' ts].
  - unfold merge_table, merged. simpl.
    destruct init; simpl; [done|]. by rewrite (right_id_L ∅ (∪)).
  - rewrite IH by done. unfold merge_table, merged. simpl.
    destruct init; simpl; [done|]. by rewrite (right_id_L ∅ (∪)).
Qed.



End Revision1Facts.



(** * Further properties *)

(** ** Texts *)

Lemma app_String c s t : String c s +:+ t = String c (s +:+ t).
Proof. reflexivity. Qed.

Lemma app_empty_l t : "" +:+ t = t.
Proof. reflexivity. Qed.

Lemma app_empty_r s : s +:+ "" = s.
Proof. induction s as [|c s IH]; [done|]. by rewrite app_String, IH. Qed.

Lemma app_assoc_s s t u : (s +:+ t) +:+ u = s +:+ (t +:+ u).
Proof. induction s as [|c s IH]; [done|]. by rewrite !app_String, IH. Qed.

Lemma length_app_s s t :
  String.length (s +:+ t) = String.length s + String.length t.
Proof. induction s as [|c s IH]; [done|]. rewrite app_String. simpl. by rewrite IH. Qed.

Lemma substring_0_app w s : String.substring 0 (String.length w) (w +:+ s) = w.
Proof.
  induction w as [|c w IH].
  - by destruct s.
  - rewrite app_String. cbn [String.length String.substring]. by rewrite IH.
Qed.

Lemma consumed_app w s : consumed (w +:+ s) s = w.
Proof.
  unfold consumed. rewrite length_app_s.
  replace (String.length w + String.length s - String.length s)
    with (String.length w) by lia.
  apply substring_0_app.
Qed.

Lemma all_chars_app p s t :
  all_chars p (s +:+ t) = all_chars p s && all_chars p t.
Proof.
  induction s as [|c s IH]; [done|]. rewrite app_String. simpl.
  rewrite IH. by destruct (p c).
Qed.

Lemma has_char_app c s t :
  has_char c (s +:+ t) = has_char c s || has_char c t.
Proof.
  induction s as [|c' s IH]; [done|]. rewrite app_String. simpl.
  rewrite IH. by destruct (bool_decide (c' = c)).
Qed.

Lemma all_chars_has_char p c s :
  p c = false → all_chars p s = true → has_char c s = false.
Proof.
  intros Hp. induction s as [|c' s IH]; [done|]. simpl.
  intros [H1 H2]%andb_true_iff. rewrite IH by done.
  rewrite bool_decide_eq_false_2; [done|]. intros ->. congruence.
Qed.

(** ** The matcher against the declarative reading *)

Lemma cursor_eta cur : Cursor (prev cur) (rest cur) (caps cur) = cur.
Proof. by destruct cur. Qed.

Lemma star_sound {A} m p cs (k : cursor → option A) pv s a :
  star p cs k pv s = Some a →
  ∃ cur', matches m (Star p) (Cursor pv s cs) cur' ∧ k cur' = Some a.
Proof.
  revert pv. induction s as [|c s IH]; intros pv; simpl.
  - intros H. eexists. split; [apply matches_Star_0 | done].
  - destruct (p c) eqn:Hp.
    + destruct (star p cs k (Some c) s) as [a'|] eqn:E.
      * intros [= ->]. destruct (IH _ E) as (cur' & Hm & Hk).
        exists cur'. split; [by apply matches_Star_S | done].
      * intros H. eexists. split; [apply matches_Star_0 | done].
    + intros H. eexists. split; [apply matches_Star_0 | done].
Qed.

(** Whatever the matcher finds is a match. *)
Lemma run_sound {A} m r cur (k : cursor → option A) a :
  run m r cur k = Some a →
  ∃ cur', matches m r cur cur' ∧ k cur' = Some a.
Proof.
  revert cur k. induction r as [|c|p| | |r1 IH1 r2 IH2|r1 IH1 r2 IH2|p|i r IH];
    intros cur k; simpl.
  - intros H. exists cur. split; [constructor | done].
  - destruct (rest cur) as [|c' s'] eqn:E; [done|].
    case_bool_decide as Hc; [|done]. subst c'.
    intros H. eexists. split; [by apply matches_Chr | done].
  - destruct (rest cur) as [|c' s'] eqn:E; [done|].
    destruct (p c') eqn:Hp; [|done].
    intros H. eexists. split; [by eapply matches_Cls | done].
  - destruct (at_bol m cur) eqn:E; [|done].
    intros H. exists cur. split; [by constructor | done].
  - destruct (at_eol m cur) eqn:E; [|done].
    intros H. exists cur. split; [by constructor | done].
  - intros H. destruct (IH1 _ _ H) as (mid & H1 & H').
    destruct (IH2 _ _ H') as (cur' & H2 & Hk).
    exists cur'. split; [by eapply matches_Seq | done].
  - destruct (run m r1 cur k) as [a'|] eqn:E.
    + intros [= ->]. destruct (IH1 _ _ E) as (cur' & H1 & Hk).
      exists cur'. split; [by apply matches_Alt_l | done].
    + intros H. destruct (IH2 _ _ H) as (cur' & H2 & Hk).
      exists cur'. split; [by apply matches_Alt_r | done].
  - intros H. destruct (star_sound m _ _ _ _ _ _ H) as (cur' & Hm & Hk).
    exists cur'. split; [| done]. by rewrite cursor_eta in Hm.
  - intros H. destruct (IH _ _ H) as (cur' & Hm & Hk).
    eexists. split; [by apply matches_Grp | done].
Qed.

(** Where there is a match after which the continuation succeeds, the
    matcher finds one (not always the same one). *)
Lemma run_complete {A} m r cur cur' (k : cursor → option A) :
  matches m r cur cur' → is_Some (k cur') → is_Some (run m r cur k).
Proof.
  intros H. revert k.
  induction H as [cur|c s' cur E|p c s' cur E Hp|cur E|cur E
                 |r1 r2 cur mid cur' _ IH1 _ IH2|r1 r2 cur cur' _ IH
                 |r1 r2 cur cur' _ IH|p pv s cs|p pv c s cs cur' Hp _ IH
                 |i r cur cur' _ IH]; intros k Hk; simpl.
  - done.
  - rewrite E. by rewrite bool_decide_eq_true_2.
  - rewrite E. by rewrite Hp.
  - by rewrite E.
  - by rewrite E.
  - apply IH1. by apply IH2.
  - destruct (IH k Hk) as [a ->]. eauto.
  - destruct (run m r1 cur k); [eauto | by apply IH].
  - destruct s as [|c s]; simpl; [done|].
    destruct (p c); [|done].
    destruct (star p cs k (Some c) s); [eauto | done].
  - rewrite Hp. specialize (IH k Hk). simpl in IH.
    destruct IH as [a ->]. eauto.
  - by apply IH.
Qed.

Lemma matches_Star_inv m p cur cur' :
  matches m (Star p) cur cur' →
  ∃ w, all_chars p w = true ∧ rest cur = w +:+ rest cur'
       ∧ caps cur' = caps cur.
Proof.
  intros H. remember (Star p) as r eqn:Er. revert Er.
  induction H; intros Er; try discriminate; injection Er as ->.
  - by exists "".
  - destruct (IHmatches eq_refl) as (w & Hw & Hr & Hc).
    exists (String c w). simpl in *. rewrite H, Hw, Hr. done.
Qed.

Lemma matches_Star_intro m p w pv s cs :
  all_chars p w = true →
  ∃ pv', matches m (Star p) (Cursor pv (w +:+ s) cs) (Cursor pv' s cs).
Proof.
  revert pv. induction w as [|c w IH]; intros pv; simpl.
  - intros _. exists pv. apply matches_Star_0.
  - intros [Hc Hw]%andb_true_iff. destruct (IH (Some c) Hw) as [pv' H].
    exists pv'. rewrite app_String. by apply matches_Star_S.
Qed.

Lemma matches_Lit_inv m w cur cur' :
  matches m (Lit w) cur cur' →
  rest cur = w +:+ rest cur' ∧ caps cur' = caps cur.
Proof.
  revert cur. induction w as [|c w IH]; intros cur H; simpl in H.
  - by inversion H.
  - inversion H as [| | | | |? ? ? mid ? H1 H2| | | | |]; subst.
    inversion H1; subst. destruct (IH _ H2) as [Hr Hc]. simpl in *.
    rewrite app_String. split; congruence.
Qed.

Lemma matches_Lit_intro m w pv s cs :
  ∃ pv', matches m (Lit w) (Cursor pv (w +:+ s) cs) (Cursor pv' s cs).
Proof.
  revert pv. induction w as [|c w IH]; intros pv; simpl.
  - exists pv. constructor.
  - destruct (IH (Some c)) as [pv' H]. exists pv'.
    eapply matches_Seq; [| exact H].
    by apply (matches_Chr m c (w +:+ s) (Cursor pv (String c (w +:+ s)) cs)).
Qed.

(** Inversion of a match of a pattern built from the constructors other than
    [Star]. *)
Ltac inv_matches :=
  repeat match goal with
    | H : matches _ (Cat _) _ _ |- _ => unfold Cat in H; cbn [foldr] in H
    | H : matches _ (Plus _) _ _ |- _ => unfold Plus in H
    | H : matches _ (Opt _) _ _ |- _ => unfold Opt in H
    | H : matches _ (Seq _ _) _ _ |- _ => inversion H; subst; clear H
    | H : matches _ (Alt _ _) _ _ |- _ => inversion H; subst; clear H
    | H : matches _ (Grp _ _) _ _ |- _ => inversion H; subst; clear H
    | H : matches _ (Chr _) _ _ |- _ => inversion H; subst; clear H
    | H : matches _ (Cls _) _ _ |- _ => inversion H; subst; clear H
    | H : matches _ Eps _ _ |- _ => inversion H; subst; clear H
    | H : matches _ Bol _ _ |- _ => inversion H; subst; clear H
    | H : matches _ Eol _ _ |- _ => inversion H; subst; clear H
    | H : matches _ (Lit _) _ _ |- _ =>
        apply matches_Lit_inv in H; destruct H as [? ?]
    | H : matches _ (Star _) _ _ |- _ =>
        apply matches_Star_inv in H; destruct H as (? & ? & ? & ?)
    end.

Lemma at_eol_false_empty cur : at_eol false cur = true → rest cur = "".
Proof. unfold at_eol. by destruct (rest cur). Qed.

(** What a match of [langNameRegex] looks like: a slash, the name, an
    optional dotted part, and [.lang] at the end of the path. *)
Lemma langNameRegex_shape pv s cur' :
  matches false langNameRegex (Cursor pv s ∅) cur' →
  ∃ n tail,
    s = "/" +:+ n +:+ tail
    ∧ n ≠ "" ∧ all_chars not_slash_dot n = true
    ∧ (tail = ".lang"
       ∨ ∃ tag, tag ≠ "" ∧ all_chars not_slash tag = true
                ∧ tail = "." +:+ tag +:+ ".lang")
    ∧ caps cur' !! 1 = Some n.
Proof.
  intros H. unfold langNameRegex in H. inv_matches; simpl in *.
  all: match goal with H : at_eol false _ = true |- _ =>
         apply at_eol_false_empty in H; simpl in H end.
  all: subst.
  all: match goal with
       | Hx : all_chars not_slash_dot ?x = true, Hc : not_slash_dot ?c = true
         |- context [String ?c (?x +:+ rest ?cur)] =>
           exists (String c x), (rest cur)
       end.
  all: split_and!;
    [reflexivity | done | by simpl; apply andb_true_iff | |].
  - right.
    match goal with
    | H : rest _ = String "." (String ?c0 (?x0 +:+ rest ?mid)),
      H' : rest ?mid = ".lang" |- _ =>
        exists (String c0 x0); rewrite H, H'
    end.
    split_and!; [done | by simpl; apply andb_true_iff | reflexivity].
  - match goal with H : caps _ = <[_ := _]> _ |- _ => rewrite H end.
    rewrite lookup_insert_eq. f_equal.
    match goal with |- consumed (String ?c (?x +:+ ?t)) ?t = _ =>
      apply (consumed_app (String c x) t) end.
  - left. done.
  - rewrite lookup_insert_eq. f_equal.
    match goal with |- consumed (String ?c (?x +:+ ?t)) ?t = _ =>
      apply (consumed_app (String c x) t) end.
Qed.

Lemma exec_from_here m r pv s fd :
  exec_from m r pv s = Some fd →
  ∃ pre pv' s', s = pre +:+ s' ∧ here m r pv' s' = Some fd.
Proof.
  revert pv. induction s as [|c s IH]; intros pv; simpl.
  - destruct (here m r pv "") eqn:E; [|done].
    intros [= ->]. by exists "", pv, "".
  - destruct (here m r pv (String c s)) eqn:E.
    + intros [= ->]. by exists "", pv, (String c s).
    + intros H. destruct (IH _ H) as (pre & pv' & s' & -> & Hh).
      by exists (String c pre), pv', s'.
Qed.

Lemma here_sound m r pv s fd :
  here m r pv s = Some fd →
  ∃ cur', matches m r (Cursor pv s ∅) cur'
          ∧ fd = Found (consumed s (rest cur')) (caps cur').
Proof.
  unfold here. intros H. destruct (run_sound _ _ _ _ _ H) as (cur' & Hm & Hk).
  exists cur'. split; [done | congruence].
Qed.

Lemma here_complete m r pv s cur' :
  matches m r (Cursor pv s ∅) cur' → is_Some (here m r pv s).
Proof. intros H. unfold here. by eapply run_complete. Qed.

(** The search goes past the positions at which nothing matches. *)
Lemma exec_from_skip m r pre s pv :
  (∀ a b pv', pre = a +:+ b → b ≠ "" → here m r pv' (b +:+ s) = None) →
  ∃ pv', exec_from m r pv (pre +:+ s) = exec_from m r pv' s.
Proof.
  revert pv. induction pre as [|c pre IH]; intros pv Hnone.
  - by exists pv.
  - rewrite app_String. cbn [exec_from].
    rewrite <- (app_String c pre s), (Hnone "" (String c pre) pv) by done.
    apply IH.
    intros a b pv' -> Hb. by apply (Hnone (String c a) b pv').
Qed.

Lemma exec_from_found m r pv s fd :
  here m r pv s = Some fd → exec_from m r pv s = Some fd.
Proof. intros H. destruct s; simpl; by rewrite H. Qed.

(** Two texts of characters of a set, each followed by a character outside
    the set: when the whole texts agree, so do the two. *)
Lemma all_chars_prefix_unique p c n n' t t' :
  p c = false →
  all_chars p n = true → all_chars p n' = true →
  n +:+ String c t = n' +:+ String c t' → n = n'.
Proof.
  intros Hc. revert n'. induction n as [|a n IH]; intros [|a' n']; simpl.
  - done.
  - intros _ [Ha _]%andb_true_iff. rewrite app_String. intros [= <- _]. congruence.
  - intros [Ha _]%andb_true_iff _. rewrite app_String. intros [= -> _]. congruence.
  - intros [_ Hn]%andb_true_iff [_ Hn']%andb_true_iff.
    rewrite !app_String. intros [= -> E]. f_equal. by apply IH.
Qed.

Lemma lang_tail_dot tail : lang_tail tail → ∃ t, tail = String "." t.
Proof. intros [-> | (tag & _ & _ & ->)]; eauto. Qed.

Lemma lang_tail_no_slash tail : lang_tail tail → has_char "/" tail = false.
Proof.
  intros [-> | (tag & _ & Ht & ->)]; [done|].
  rewrite app_String, app_empty_l. cbn [has_char].
  rewrite has_char_app, (all_chars_has_char not_slash "/" tag) by done. done.
Qed.

Lemma langNameRegex_intro pv n tail :
  n ≠ "" → all_chars not_slash_dot n = true → lang_tail tail →
  ∃ cur', matches false langNameRegex (Cursor pv ("/" +:+ n +:+ tail) ∅) cur'.
Proof.
  intros Hn Hall Ht. destruct n as [|c n]; [done|].
  simpl in Hall. apply andb_true_iff in Hall as [Hc Hall].
  unfold langNameRegex, Cat, Plus, Opt. cbn [foldr].
  destruct (matches_Star_intro false not_slash_dot n (Some c) tail ∅ Hall)
    as [pv1 Hstar].
  set (caps1 := <[1 := consumed (String c n +:+ tail) tail]> (∅ : gmap nat string)).
  assert (∃ cur', matches false
            (Seq (Alt (Seq (Chr ".") (Seq (Seq (Cls not_slash) (Star not_slash)) Eps)) Eps)
               (Seq (Lit ".lang") (Seq Eol Eps)))
            (Cursor pv1 tail caps1) cur') as [cur' Htail].
  { destruct Ht as [-> | (tag & Htag & Hall' & ->)].
    - destruct (matches_Lit_intro false ".lang" pv1 "" caps1) as [pv2 HL].
      eexists. eapply matches_Seq; [apply matches_Alt_r; constructor|].
      eapply matches_Seq; [exact HL|].
      eapply matches_Seq; [by apply matches_Eol | constructor].
    - destruct tag as [|c' tag]; [done|].
      simpl in Hall'. apply andb_true_iff in Hall' as [Hc' Hall'].
      destruct (matches_Star_intro false not_slash tag (Some c') ".lang" caps1 Hall')
        as [pv2 Hstar'].
      destruct (matches_Lit_intro false ".lang" pv2 "" caps1) as [pv3 HL].
      eexists. eapply matches_Seq.
      + apply matches_Alt_l. eapply matches_Seq.
        * by apply (matches_Chr false "." (String c' tag +:+ ".lang")
                      (Cursor pv1 _ caps1)).
        * eapply matches_Seq; [| constructor].
          eapply matches_Seq; [| exact Hstar'].
          by apply (matches_Cls false not_slash c' (tag +:+ ".lang")
                      (Cursor (Some ".") _ caps1)%char).
      + eapply matches_Seq; [exact HL|].
        eapply matches_Seq; [by apply matches_Eol | constructor]. }
  eexists. eapply matches_Seq.
  - by apply (matches_Chr false "/" (String c n +:+ tail) (Cursor pv _ ∅)).
  - eapply matches_Seq; [| exact Htail].
    apply (matches_Grp false 1 _ (Cursor (Some "/"%char) (String c n +:+ tail) ∅)
             (Cursor pv1 tail ∅)).
    eapply matches_Seq; [| exact Hstar].
    by apply (matches_Cls false not_slash_dot c (n +:+ tail)
                (Cursor (Some "/"%char) _ ∅)).
Qed.

(** X1. The language of a file is the first dot-delimited part of its base name,
    whatever the directory: [dir/name.lang] and [dir/name.tag.lang] belong to
    [name]. *)
Theorem langNameOf_base_name (dir n tail : string) :
  n ≠ "" → all_chars not_slash_dot n = true → lang_tail tail →
  langNameOf (dir +:+ "/" +:+ n +:+ tail) = Some n.
Proof.
  intros Hn Hall Ht.
  assert (has_char "/" (n +:+ tail) = false) as Hns.
  { rewrite has_char_app, (all_chars_has_char not_slash_dot "/" n),
      lang_tail_no_slash; done. }
  unfold langNameOf, exec.
  destruct (exec_from_skip false langNameRegex dir ("/" +:+ n +:+ tail) None)
    as [pv ->].
  { intros a b pv' -> Hb.
    destruct (here false langNameRegex pv' (b +:+ "/" +:+ n +:+ tail)) eqn:E;
      [|done].
    exfalso. apply here_sound in E as (cur' & Hm & _).
    apply langNameRegex_shape in Hm
      as (n' & tail' & Hs & Hn' & Hall' & Ht' & _).
    destruct b as [|c b]; [done|].
    rewrite !app_String, !app_empty_l in Hs. injection Hs as -> Hs.
    assert (has_char "/" (b +:+ String "/" (n +:+ tail)) = true) as Hyes.
    { rewrite has_char_app. simpl. by rewrite orb_true_r. }
    rewrite Hs, has_char_app, (all_chars_has_char not_slash_dot "/" n'),
      lang_tail_no_slash in Hyes; done. }
  destruct (langNameRegex_intro pv n tail Hn Hall Ht) as [cur0 H0].
  destruct (here_complete _ _ _ _ _ H0) as [fd Hfd].
  rewrite (exec_from_found _ _ _ _ _ Hfd). simpl.
  apply here_sound in Hfd as (cur' & Hm & ->). simpl.
  apply langNameRegex_shape in Hm as (n' & tail' & Hs & Hn' & Hall' & Ht' & ->).
  f_equal. rewrite !app_String, !app_empty_l in Hs. injection Hs as Hs.
  destruct (lang_tail_dot _ Ht) as [t ->].
  destruct (lang_tail_dot _ Ht') as [t' ->].
  symmetry. by eapply (all_chars_prefix_unique not_slash_dot ".").
Qed.

(** X2. A path of which a language is read ends in [.lang], and the language is
    a part of it that comes straight after a slash, is followed by a dot and
    holds neither: the first part of the base name. *)
Theorem langNameOf_shape (langFile n : string) :
  langNameOf langFile = Some n →
  ∃ dir tail,
    langFile = dir +:+ "/" +:+ n +:+ tail
    ∧ n ≠ "" ∧ all_chars not_slash_dot n = true ∧ lang_tail tail.
Proof.
  unfold langNameOf, exec. intros H.
  destruct (exec_from false langNameRegex None langFile) as [fd|] eqn:E; [|done].
  simpl in H.
  apply exec_from_here in E as (dir & pv & s & -> & Hh).
  apply here_sound in Hh as (cur' & Hm & ->). simpl in H.
  apply langNameRegex_shape in Hm as (n' & tail & -> & Hn & Hall & Ht & Hc).
  rewrite Hc in H. injection H as <-.
  by exists dir, tail.
Qed.

Lemma match_all_from_elem m r pv skip s t :
  t ∈ match_all_from m r pv skip s →
  ∃ pv' s' fd, here m r pv' s' = Some fd ∧ text fd = t.
Proof.
  revert pv skip. induction s as [|c s IH]; intros pv skip.
  - destruct skip; simpl; [|by intros ?%elem_of_nil].
    destruct (here m r pv "") as [fd|] eqn:E; [|by intros ?%elem_of_nil].
    intros [->|?%elem_of_nil]%elem_of_cons; [|done]. eauto.
  - destruct skip as [|n]; simpl; [|apply IH].
    destruct (here m r pv (String c s)) as [fd|] eqn:E; [|apply IH].
    intros [->|H]%elem_of_cons; [eauto | by eapply IH].
Qed.

(** What a match of [scriptTemplate] looks like: the matched text opens with
    [{{!], a body that is not empty, and [!}}]; the body is the first group
    when the block was matched with the end of its line, and the second
    group otherwise. *)
Lemma scriptTemplate_shape pv s cur' :
  matches true scriptTemplate (Cursor pv s ∅) cur' →
  ∃ body sfx,
    s = "{{!" +:+ body +:+ "!}}" +:+ sfx +:+ rest cur'
    ∧ body ≠ ""
    ∧ or_else (caps cur' !! 1) (caps cur' !! 2) = Some body.
Proof.
  intros H. unfold scriptTemplate in H. inv_matches; simpl in *.
  all: subst.
  - match goal with
    | Hx : all_chars any ?x = true, Hb : all_chars blank ?x0 = true
      |- context [String ?c (?x +:+ _)] => exists (String c x), (x0 +:+ nl)
    end.
    match goal with H : caps _ = <[_ := _]> _ |- _ => rewrite H end.
    match goal with H : rest _ = String "!" _ |- _ => rewrite H end.
    match goal with H : rest _ = String LF _ |- _ => rewrite H end.
    split_and!; [| done |].
    + rewrite (app_assoc_s _ nl). reflexivity.
    + rewrite lookup_insert_eq.
      match goal with |- context [consumed (String ?c (?x +:+ ?t)) ?t] =>
        change (consumed (String c (x +:+ t)) t)
          with (consumed (String c x +:+ t) t);
        rewrite (consumed_app (String c x) t) end.
      reflexivity.
  - match goal with
    | Hx : all_chars any ?x = true
      |- context [String ?c (?x +:+ _)] => exists (String c x), ""
    end.
    match goal with H : caps _ = ∅ |- _ => rewrite H end.
    match goal with H : rest _ = String "!" _ |- _ => rewrite H end.
    split_and!; [reflexivity | done |].
    rewrite lookup_insert_ne, lookup_empty, lookup_insert_eq by done.
    match goal with |- context [consumed (String ?c (?x +:+ ?t)) ?t] =>
      change (consumed (String c (x +:+ t)) t)
        with (consumed (String c x +:+ t) t);
      rewrite (consumed_app (String c x) t) end.
    reflexivity.
Qed.

Lemma scriptTemplate_intro body sfx :
  body ≠ "" →
  ∃ cur', matches true scriptTemplate
            (Cursor None ("{{!" +:+ body +:+ "!}}" +:+ sfx) ∅) cur'.
Proof.
  intros Hb. destruct body as [|c body]; [done|].
  destruct (matches_Star_intro true any body (Some c) ("!}}" +:+ sfx) ∅)
    as [pv1 Hstar].
  { clear. by induction body. }
  set (caps1 := <[2 := consumed (String c body +:+ "!}}" +:+ sfx) ("!}}" +:+ sfx)]>
                  (∅ : gmap nat string)).
  destruct (matches_Lit_intro true "!}}" pv1 sfx caps1) as [pv2 HL].
  destruct (matches_Lit_intro true "{{!" None (String c body +:+ "!}}" +:+ sfx) ∅)
    as [pv0 HL0].
  eexists. unfold scriptTemplate. apply matches_Alt_r.
  unfold Cat. cbn [foldr].
  eapply matches_Seq; [exact HL0|].
  eapply matches_Seq.
  - apply (matches_Grp true 2 _ (Cursor pv0 (String c body +:+ "!}}" +:+ sfx) ∅)
             (Cursor pv1 ("!}}" +:+ sfx) ∅)).
    eapply matches_Seq; [| exact Hstar].
    by apply (matches_Cls true any c (body +:+ "!}}" +:+ sfx) (Cursor pv0 _ ∅)).
  - eapply matches_Seq; [exact HL | constructor].
Qed.

(* The shape of a matched block. *)
Lemma block_has_body (loadedString scriptData : string) :
  scriptData ∈ match_all true scriptTemplate loadedString →
  ∃ functionBody sfx,
    functionBodyOf scriptData = Ok functionBody
    ∧ functionBody ≠ ""
    ∧ scriptData = "{{!" +:+ functionBody +:+ "!}}" +:+ sfx.
Proof.
  intros Hin. apply match_all_from_elem in Hin as (pv & s & fd & Hh & <-).
  apply here_sound in Hh as (cur & Hm & ->). cbn [text].
  apply scriptTemplate_shape in Hm as (b & sfx & -> & Hb & _).
  assert (consumed ("{{!" +:+ b +:+ "!}}" +:+ sfx +:+ rest cur) (rest cur)
          = "{{!" +:+ b +:+ "!}}" +:+ sfx) as ->.
  { replace ("{{!" +:+ b +:+ "!}}" +:+ sfx +:+ rest cur)
      with (("{{!" +:+ b +:+ "!}}" +:+ sfx) +:+ rest cur)
      by (by rewrite !app_assoc_s).
    apply consumed_app. }
  destruct (scriptTemplate_intro b sfx Hb) as [cur0 H0].
  destruct (here_complete _ _ _ _ _ H0) as [fd Hfd].
  unfold functionBodyOf, exec. rewrite (exec_from_found _ _ _ _ _ Hfd).
  apply here_sound in Hfd as (cur' & Hm & ->). cbn [groups].
  apply scriptTemplate_shape in Hm as (b' & sfx' & Hs & Hb' & ->).
  by exists b', (sfx' +:+ rest cur').
Qed.

(** X3. Every text that the global pattern finds is matched again by the pattern
    on its own, with a body that is not empty: line 566 never reads a null
    match. *)
Theorem matched_block_has_body (loadedString scriptData : string) :
  scriptData ∈ match_all true scriptTemplate loadedString →
  ∃ functionBody sfx,
    functionBodyOf scriptData = Ok functionBody
    ∧ functionBody ≠ ""
    ∧ scriptData = "{{!" +:+ functionBody +:+ "!}}" +:+ sfx.
Proof. exact (block_has_body loadedString scriptData). Qed.

(** ** The errors of [res] *)








(** ** Texts without markers *)

Lemma any_pattern_opens template : opens_with "{" (any_pattern template).
Proof. intros m pv s cs cur' H. unfold any_pattern in H. inv_matches; simpl in *; eauto. Qed.

Lemma maybe_pattern_opens template : opens_with "{" (maybe_pattern template).
Proof. intros m pv s cs cur' H. unfold maybe_pattern in H. inv_matches; simpl in *; eauto. Qed.

Lemma maybeTemplates_opens : opens_with "{" maybeTemplates.
Proof. intros m pv s cs cur' H. unfold maybeTemplates in H. inv_matches; simpl in *; eauto. Qed.

Lemma scriptTemplate_opens : opens_with "{" scriptTemplate.
Proof. intros m pv s cs cur' H. unfold scriptTemplate in H. inv_matches; simpl in *; eauto. Qed.

Lemma escape_opens : opens_with BACKSLASH (Lit (String BACKSLASH "n")).
Proof. intros m pv s cs cur' H. inv_matches; simpl in *; eauto. Qed.

Lemma here_opens c0 m r pv s :
  opens_with c0 r → has_char c0 s = false → here m r pv s = None.
Proof.
  intros Ho Hs. destruct (here m r pv s) as [fd|] eqn:E; [|done].
  apply here_sound in E as (cur' & Hm & _).
  destruct (Ho _ _ _ _ _ Hm) as [s' ->]. simpl in Hs.
  by rewrite bool_decide_eq_true_2 in Hs.
Qed.

Lemma has_char_cons_false c0 c s :
  has_char c0 (String c s) = false → has_char c0 s = false.
Proof. simpl. by intros [_ ?]%orb_false_iff. Qed.

(** Without the opening character in the text, the pattern is found
    nowhere: nothing is replaced, nothing is listed, the test fails. *)
Lemma no_match_without c0 m r s :
  opens_with c0 r → has_char c0 s = false →
  (∀ f, replace_all m r f s = s) ∧ match_all m r s = [] ∧ test m r s = false.
Proof.
  intros Ho. unfold replace_all, match_all, test, exec.
  generalize (None : option ascii) as pv.
  induction s as [|c s IH]; intros pv Hs.
  - cbn [replace_all_from match_all_from exec_from].
    rewrite (here_opens c0) by done. split_and!; [done | done |].
    apply bool_decide_eq_false. by intros [? ?].
  - cbn [replace_all_from match_all_from exec_from].
    rewrite (here_opens c0) by done.
    destruct (IH (Some c) (has_char_cons_false _ _ _ Hs)) as (H1 & H2 & H3).
    split_and!; [intros f; by rewrite H1 | done | done].
Qed.

Lemma substitute_plain data template loadedString :
  has_char "{" loadedString = false →
  substitute_literal data loadedString template = loadedString.
Proof.
  intros Hs. unfold substitute_literal.
  destruct (no_match_without "{" false (maybe_pattern template) loadedString)
    as (_ & _ & ->); [apply maybe_pattern_opens | done |].
  simpl.
  by destruct (no_match_without "{" false (any_pattern template) loadedString)
    as (-> & _ & _); [apply any_pattern_opens | done |].
Qed.

(** X5. A stored text that holds neither an opening brace nor a backslash is
    returned as it is, whatever the script host and the values of the data
    bag, when the names of the data bag are literal ones (a name with a
    syntax character is a pattern of its own, which may be rejected or may
    match in such a text). *)
Theorem res_plain_text newRegExp newFunction (i : Lang) (lang key : string)
    (data : option TemplateData) (language : Language) (template : string) :
  _langs i !! lang = Some language →
  strings language !! key = Some template →
  template ≠ "" →
  Forall (λ name, literal_name name = true) (default [] data).*1 →
  has_char "{" template = false →
  has_char BACKSLASH template = false →
  res newRegExp newFunction (Some i) lang key data = Ok template.
Proof.
  intros Hl Hk Hne Hlit Hb Hs.
  assert (∀ keys, foldl (substitute_literal (default [] data)) template keys
                  = template) as Hfold.
  { induction keys as [|t keys IH]; [done|]. simpl.
    by rewrite substitute_plain. }
  rewrite (res_without_block_literal _ _ _ _ _ _ _ _ Hl Hk Hne Hlit);
    rewrite Hfold.
  - unfold finish.
    destruct (no_match_without "{" true maybeTemplates template)
      as (-> & _ & _); [apply maybeTemplates_opens | done |].
    by destruct (no_match_without BACKSLASH false (Lit (String BACKSLASH "n")) template)
      as (-> & _ & _); [apply escape_opens | done |].
  - by destruct (no_match_without "{" true scriptTemplate template)
      as (_ & _ & ->); [apply scriptTemplate_opens | done |].
Qed.

Lemma res_plain_text_witness :
  res (regexps []) (host []) (one_string "en_us" "HELLO" "Hello there!")
    "en_us" "HELLO" (Some [("name", str "Ada")]) = Ok "Hello there!".
Proof.
  refine (res_plain_text (regexps []) (host [])
            (set_langs empty_instance
               {[ "en_us" := {| name := "en_us";
                                strings := {[ "HELLO" := "Hello there!" ]} |} ]})
            "en_us" "HELLO" (Some [("name", str "Ada")])
            {| name := "en_us"; strings := {[ "HELLO" := "Hello there!" ]} |}
            "Hello there!" _ _ _ _ _ _);
    try (vm_compute; reflexivity).
  - discriminate.
  - repeat constructor.
Defined.

Lemma result_bind_Ok {A B} (a : A) (f : A → result B) : (x ← Ok a; f x) = f a.
Proof. reflexivity. Qed.

(** X6. A value put in the place of a token is not final: the script pass and the
    two clean-up passes run over the text that the substitution left, so a
    script block, an optional marker or a [\n] escape inside a value of the
    data bag is treated as one of the template. *)
Theorem res_value_is_resolved newRegExp newFunction (i : Lang)
    (lang key v : string) (language : Language) :
  _langs i !! lang = Some language →
  strings language !! key = Some "{{ value }}" →
  res newRegExp newFunction (Some i) lang key (Some [("value", str v)]) =
    (loadedString ← scripts newFunction lang key [("value", str v)] v;
     Ok (finish loadedString)).
Proof.
  intros Hl Hk.
  rewrite (res_found _ _ _ _ _ _ _ _ Hl Hk) by done.
  change (default [] (Some [("value", str v)])) with [("value", str v)].
  change ([("value", str v)].*1) with ["value"].
  rewrite (substitute_all_literal newRegExp [("value", str v)] "{{ value }}"
             ["value"]) by (repeat constructor).
  assert (foldl (substitute_literal [("value", str v)]) "{{ value }}" ["value"]
          = v) as H.
  { vm_compute. apply app_empty_r. }
  rewrite H.
  exact (result_bind_Ok v
           (λ x, loadedString ← scripts newFunction lang key [("value", str v)] x;
                 Ok (finish loadedString))).
Qed.

Lemma res_value_is_resolved_witness :
  res (regexps []) (host [(" 1 + 1 ", Return (str "2"))])
    (one_string "en_us" "ECHO" "{{ value }}") "en_us" "ECHO"
    (Some [("value", str "{{! 1 + 1 !}}")])
  = Ok "2".
Proof.
  unfold one_string.
  rewrite (res_value_is_resolved (regexps [])
             (host [(" 1 + 1 ", Return (str "2"))])
             (set_langs empty_instance
                {[ "en_us" := {| name := "en_us";
                                 strings := {[ "ECHO" := "{{ value }}" ]} |} ]})
             "en_us" "ECHO" "{{! 1 + 1 !}}"
             {| name := "en_us"; strings := {[ "ECHO" := "{{ value }}" ]} |});
    vm_compute; reflexivity.
Defined.

(** ** Help text *)

Lemma merge_entry_get ci c l x c' l' :
  getNestedValue (merge_entry ci c l x) c' l' =
    if bool_decide (c = c' ∧ l = l')
    then merge_help (getNestedValue ci c l) x
    else getNestedValue ci c' l'.
Proof.
  unfold merge_entry, merge_help, getNestedValue, assignNestedValue.
  destruct (decide (c = c')) as [<-|Hc].
  - rewrite lookup_insert_eq. simpl.
    destruct (decide (l = l')) as [<-|Hl].
    + rewrite bool_decide_eq_true_2 by done. rewrite lookup_insert_eq.
      destruct (ci !! c) as [byLang|] eqn:E; simpl.
      * destruct (byLang !! l) eqn:E'; simpl.
        -- by rewrite E; simpl; rewrite E'.
        -- by rewrite lookup_insert_eq; simpl; rewrite lookup_insert_eq.
      * by rewrite lookup_insert_eq; simpl; rewrite lookup_insert_eq.
    + rewrite bool_decide_eq_false_2 by (by intros [_ ?]).
      rewrite lookup_insert_ne by done.
      destruct (ci !! c) as [byLang|] eqn:E; simpl.
      * destruct (byLang !! l) eqn:E'; simpl.
        -- by rewrite E.
        -- rewrite lookup_insert_eq. simpl. by rewrite lookup_insert_ne.
      * rewrite lookup_insert_eq. simpl. by rewrite lookup_insert_ne.
  - rewrite bool_decide_eq_false_2 by (by intros [? _]).
    rewrite lookup_insert_ne by done.
    match goal with
    | |- context [match ?d with Some _ => ci | None => _ end] => destruct d
    end; [done|].
    by rewrite lookup_insert_ne.
Qed.

Lemma merge_languages_get ci c0 ls c l :
  getNestedValue (foldl (λ ci l, merge_entry ci c0 l.1 l.2) ci ls) c l =
    foldl merge_help (getNestedValue ci c l)
      (if bool_decide (c0 = c) then (filter (λ e, e.1 = l) ls).*2 else []).
Proof.
  revert ci. induction ls as [|[l0 x] ls IH]; intros ci.
  - by destruct (bool_decide (c0 = c)).
  - cbn [foldl]. rewrite IH, merge_entry_get. cbn [fst snd].
    destruct (decide (c0 = c)) as [->|Hc].
    + rewrite (bool_decide_eq_true_2 (c = c)) by done.
      rewrite filter_cons. cbn [fst].
      destruct (decide (l0 = l)) as [->|Hl].
      * by rewrite (bool_decide_eq_true_2 (c = c ∧ l = l)).
      * by rewrite bool_decide_eq_false_2 by (by intros [_ ?]).
    + rewrite (bool_decide_eq_false_2 (c0 = c)) by done.
      by rewrite bool_decide_eq_false_2 by (by intros [? _]).
Qed.

Lemma merge_localizations_get ci localizations c l :
  getNestedValue (merge_localizations ci localizations) c l =
    foldl merge_help (getNestedValue ci c l)
      (localizations ≫= λ entry,
         if bool_decide (entry.1 = c)
         then (filter (λ e, e.1 = l) entry.2).*2 else []).
Proof.
  unfold merge_localizations. revert ci.
  induction localizations as [|entry ls IH]; intros ci; [done|].
  cbn [foldl]. rewrite IH, merge_languages_get, bind_cons, foldl_app. done.
Qed.

(** What is known of a command and a language after the discovered files are
    merged: the records the files give for them, merged in their order into
    what was known. *)
Lemma load_command_files_get fs ci files c l :
  getNestedValue (foldl (load_command_file fs) ci files) c l =
    foldl merge_help (getNestedValue ci c l) (help_entries fs files c l).
Proof.
  unfold help_entries. revert ci.
  induction files as [|f files IH]; intros ci; [done|].
  cbn [foldl]. rewrite IH, bind_cons, foldl_app. f_equal.
  unfold load_command_file.
  destruct (test false _ f); [done|].
  destruct (require_commands fs f) as [err|localizations]; [done|].
  apply merge_localizations_get.
Qed.

Lemma field_of_spread f a b :
  field_of f (spread a b) =
    match field_of f b with
    | Some x => Some x
    | None => field_of f a
    end.
Proof. by destruct f. Qed.

Lemma merge_help_keeps f known post v :
  known ≫= field_of f = Some v →
  Forall (λ x, field_of f x = None) post →
  foldl merge_help known post ≫= field_of f = Some v.
Proof.
  intros Hk Hall. revert known Hk.
  induction Hall as [|x post Hx _ IH]; intros known Hk; [done|].
  cbn [foldl]. apply IH. unfold merge_help. simpl.
  rewrite field_of_spread, Hx. by destruct known.
Qed.

Lemma merge_help_last f known pre e post v :
  field_of f e = Some v →
  Forall (λ x, field_of f x = None) post →
  foldl merge_help known (pre ++ e :: post) ≫= field_of f = Some v.
Proof.
  intros He Hall. rewrite foldl_app. cbn [foldl].
  apply merge_help_keeps; [|done].
  unfold merge_help. simpl. by rewrite field_of_spread, He.
Qed.

Lemma getCommandInfo_field i command lang f v :
  getNestedValue (_commandInfo i) (cmd_name command) lang ≫= field_of f = Some v →
  ∃ r, getCommandInfo (Some i) (a_command command) lang = Ok r
       ∧ field_of f r =
           Some (if bool_decide (v = "") then own_field f command else v).
Proof.
  intros Hv. eexists. split; [reflexivity|].
  destruct f; simpl in *; rewrite Hv; by destruct v.
Qed.

(** X7. Help text is merged field by field across the discovered files: for a
    field of a command in a language, the last record, in discovery order,
    that has the field at all decides it, also when later files give other
    fields of the same command and language. When the value it gives is not
    empty, [getCommandInfo] returns it; when it is the empty string,
    [getCommandInfo] returns the command's own value, whatever an earlier
    file gave. *)
Theorem help_fields_merge (fs : FileSystem) (i : Lang) (dir : string)
    (command : Command) (lang : string) (f : field) (v : string)
    (pre post : list LocalizedCommandInfo) (e : LocalizedCommandInfo) :
  help_entries fs (glob_sync fs (resolve fs dir +:+ "/**/*.lang.json"))
    (cmd_name command) lang = pre ++ e :: post →
  field_of f e = Some v →
  Forall (λ later, field_of f later = None) post →
  ∃ st' r,
    loadCommandLocalizationsFrom fs (Some i) dir = Ok st'
    ∧ getCommandInfo st' (a_command command) lang = Ok r
    ∧ field_of f r =
        Some (if bool_decide (v = "") then own_field f command else v).
Proof.
  intros He Hf Hpost. unfold loadCommandLocalizationsFrom. simpl.
  set (files := glob_sync fs (resolve fs dir +:+ "/**/*.lang.json")) in *.
  assert (files ≠ []) as Hfiles.
  { intros E. rewrite E in He. by destruct pre. }
  rewrite bool_decide_eq_false_2 by (by destruct files).
  destruct (postLoad_keeps_tables
              (set_commandInfo i (foldl (load_command_file fs) (_commandInfo i) files)))
    as [client ->].
  destruct (getCommandInfo_field
              (set_client (set_commandInfo i
                 (foldl (load_command_file fs) (_commandInfo i) files)) client)
              command lang f v) as (r & Hr & Hfr); [|by eauto].
  simpl. rewrite load_command_files_get, He. by apply merge_help_last.
Qed.

(** ** The languages that are known *)

(* Membership in the list of languages. *)
Lemma langNames_elem (i : Lang) (L : string) :
  ∃ names,
    langNames (Some i) = Ok names
    ∧ (L ∈ names ↔
         is_Some (_langs i !! L)
         ∨ ∃ command byLang,
             _commandInfo i !! command = Some byLang ∧ is_Some (byLang !! L)).
Proof.
  eexists. split; [reflexivity|].
  rewrite elem_of_union, elem_of_dom.
  assert (L ∈ map_fold (λ (_ : string) (byLang : gmap string LocalizedCommandInfo)
                          (acc : gset string), acc ∪ dom byLang) ∅ (_commandInfo i)
          ↔ ∃ command byLang,
              _commandInfo i !! command = Some byLang ∧ is_Some (byLang !! L))
    as ->; [|tauto].
  apply (map_fold_weak_ind
           (λ (acc : gset string) (m : gmap string (gmap string LocalizedCommandInfo)),
              L ∈ acc ↔ ∃ command byLang,
                m !! command = Some byLang ∧ is_Some (byLang !! L))).
  - split; [by intros ?%elem_of_empty|].
    intros (command & byLang & H & _). by rewrite lookup_empty in H.
  - intros command byLang m acc Hnone IH.
    rewrite elem_of_union, elem_of_dom, IH. split.
    + intros [(c' & b' & Hc & HL) | HL].
      * exists c', b'. split; [|done].
        rewrite lookup_insert_ne; [done|]. intros <-. congruence.
      * exists command, byLang. by rewrite lookup_insert_eq.
    + intros (c' & b' & Hc & HL).
      destruct (decide (command = c')) as [<-|Hne].
      * rewrite lookup_insert_eq in Hc. injection Hc as <-. by right.
      * rewrite lookup_insert_ne in Hc by done. left. eauto.
Qed.

(** X9. A language is listed by [langNames] exactly when it has a table of
    strings or when some command has help text in it. *)
Theorem langNames_spec (i : Lang) (L : string) :
  ∃ names,
    langNames (Some i) = Ok names
    ∧ (L ∈ names ↔
         is_Some (_langs i !! L)
         ∨ ∃ command byLang,
             _commandInfo i !! command = Some byLang ∧ is_Some (byLang !! L)).
Proof. exact (langNames_elem i L). Qed.

(** ** The hook after a load *)

(* The cases of the hook. *)
Lemma postLoad_cases (i : Lang) (names : gset string) :
  langNames (Some i) = Ok names →
  ∃ client,
    postLoad (Some i) = Ok (Some (set_client i client))
    ∧ disableBase client = disableBase (_client i)
    ∧ (1 < size names → "setlang" ∉ disableBase (_client i) →
       setlang_disabled (_client i) = Some true →
       setlang_disabled client = Some false)
    ∧ (size names ≤ 1 ∨ "setlang" ∈ disableBase (_client i)
       ∨ setlang_disabled (_client i) ≠ Some true →
       client = _client i).
Proof.
  intros Hn. unfold postLoad. rewrite Hn. simpl.
  destruct (1 <? size names) eqn:Hs; simpl.
  - apply Nat.ltb_lt in Hs.
    destruct (decide ("setlang" ∈ disableBase (_client i))) as [Hin|Hout].
    + rewrite bool_decide_eq_true_2 by done. simpl.
      exists (_client i). destruct i as [[? ?] ? ? ? ?]; simpl in *.
      split_and!; [done | done | done | done].
    + rewrite bool_decide_eq_false_2 by done. simpl.
      destruct (setlang_disabled (_client i)) as [[|]|] eqn:Hd.
      * exists (enable_setlang (_client i)). split_and!; [done | done | done |].
        intros [? | [? | ?]]; [lia | done | done].
      * exists (_client i). destruct i as [[? ?] ? ? ? ?]; simpl in *.
        split_and!; [done | done | done | done].
      * exists (_client i). destruct i as [[? ?] ? ? ? ?]; simpl in *.
        split_and!; [done | done | done | done].
  - apply Nat.ltb_ge in Hs.
    exists (_client i). destruct i as [[? ?] ? ? ? ?]; simpl in *.
    split_and!; [done | done | intros; lia | done].
Qed.

(** X10. [postLoad] leaves every table as it is and changes the client in one way
    only: a registered [setlang] command that is disabled is enabled when
    more than one language is known and [setlang] is not among the disabled
    base commands. It never disables the command. *)
Theorem postLoad_spec (i : Lang) (names : gset string) :
  langNames (Some i) = Ok names →
  ∃ client,
    postLoad (Some i) = Ok (Some (set_client i client))
    ∧ disableBase client = disableBase (_client i)
    ∧ (1 < size names → "setlang" ∉ disableBase (_client i) →
       setlang_disabled (_client i) = Some true →
       setlang_disabled client = Some false)
    ∧ (size names ≤ 1 ∨ "setlang" ∈ disableBase (_client i)
       ∨ setlang_disabled (_client i) ≠ Some true →
       client = _client i).
Proof. exact (postLoad_cases i names). Qed.

Lemma postLoad_spec_witness :
  ∃ client,
    postLoad (Some (set_client
                      (set_langs empty_instance
                         {[ "en_us" := {| name := "en_us"; strings := ∅ |};
                            "fr" := {| name := "fr"; strings := ∅ |} ]})
                      {| disableBase := []; setlang_disabled := Some true |}))
    = Ok (Some (set_client
                  (set_langs empty_instance
                     {[ "en_us" := {| name := "en_us"; strings := ∅ |};
                        "fr" := {| name := "fr"; strings := ∅ |} ]})
                  client))
    ∧ setlang_disabled client = Some false.
Proof.
  destruct (postLoad_spec
              (set_client
                 (set_langs empty_instance
                    {[ "en_us" := {| name := "en_us"; strings := ∅ |};
                       "fr" := {| name := "fr"; strings := ∅ |} ]})
                 {| disableBase := []; setlang_disabled := Some true |})
              {[ "en_us"; "fr" ]})
    as (client & H1 & _ & H2 & _); [vm_compute; reflexivity|].
  exists client. split; [exact H1|].
  apply H2; [vm_compute; lia | | reflexivity].
  simpl. by intros ?%elem_of_nil.
Defined.

(** ** What a load of strings leaves alone *)

Section Frame.
Variable fs : FileSystem.
Variable parseFile : string → string → result Language.

(** One file changes the entry of its language at most, and removes none;
    also when it ends with an exception. *)
Lemma load_file_frame n store f :
  (∀ L, L ≠ n → (load_file fs parseFile n store f).1 !! L = store !! L)
  ∧ (∀ L, is_Some (store !! L) →
          is_Some ((load_file fs parseFile n store f).1 !! L)).
Proof.
  unfold load_file. destruct (negb _); [done|].
  destruct (text_of fs f) as [text|e]; [|done].
  destruct (parseFile n text) as [fragment|e]; [|done].
  cbn [fst]. split.
  - intros L HL. destruct (store !! n); by rewrite lookup_insert_ne.
  - intros L HL. destruct (decide (n = L)) as [->|Hne].
    + destruct (store !! L); rewrite lookup_insert_eq; eauto.
    + destruct (store !! n); by rewrite lookup_insert_ne.
Qed.

Lemma load_files_frame n store files :
  (∀ L, L ≠ n → (load_files fs parseFile n store files).1 !! L = store !! L)
  ∧ (∀ L, is_Some (store !! L) →
          is_Some ((load_files fs parseFile n store files).1 !! L)).
Proof.
  revert store. induction files as [|f files IH]; intros store; [done|].
  cbn [load_files].
  destruct (load_file_frame n store f) as [H1 H2].
  destruct (load_file fs parseFile n store f) as [store1 [e|]]; [done|].
  destruct (IH store1) as [H3 H4]. cbn [fst] in H1, H2. split.
  - intros L HL. by rewrite H3, H1.
  - intros L HL. by apply H4, H2.
Qed.

Lemma load_languages_frame store G :
  (∀ L, L ∉ G.*1 → (load_languages fs parseFile store G).1 !! L = store !! L)
  ∧ (∀ L, is_Some (store !! L) →
          is_Some ((load_languages fs parseFile store G).1 !! L)).
Proof.
  revert store. induction G as [|[n files] G IH]; intros store; [done|].
  cbn [load_languages]. rewrite fmap_cons. cbn [fst].
  destruct (load_files_frame n store files) as [H1 H2].
  destruct (load_files fs parseFile n store files) as [store1 [e|]].
  - cbn [fst] in *. split; [|done].
    intros L [HL _]%not_elem_of_cons. by apply H1.
  - destruct (IH store1) as [H3 H4]. cbn [fst] in H1, H2. split.
    + intros L [HL HG]%not_elem_of_cons. by rewrite H3, H1.
    + intros L HL. by apply H4, H2.
Qed.

(** When the grouping ends without an exception, it is the grouping by
    name. *)
Lemma group_by_language_Ok G files langs :
  group_by_language G files = Ok langs →
  langs = foldl (λ langs langFile,
                   match langNameOf langFile with
                   | None => langs
                   | Some langName => push langName langFile langs
                   end) G files.
Proof.
  revert G. induction files as [|f files IH]; intros G; cbn [group_by_language foldl].
  - by intros [= <-].
  - destruct (langNameOf f) as [n|]; [|apply IH].
    destruct (inherited n); [done | apply IH].
Qed.

(** The state that [loadLocalizationsFrom] leaves, exception or not: the
    state before, or that state with the store as the loop over the
    languages has left it and the client as [postLoad] has. *)
Lemma loadLocalizationsFrom_state i dir :
  (loadLocalizationsFrom fs parseFile (Some i) dir).1 = Some i
  ∨ ∃ client,
      (loadLocalizationsFrom fs parseFile (Some i) dir).1 =
        Some (set_client
                (set_langs i
                   (load_languages fs parseFile (_langs i)
                      (Object_entries
                         (grouped (glob_sync fs (resolve fs dir +:+ "/**/*.lang"))))).1)
                client).
Proof.
  unfold loadLocalizationsFrom.
  set (files := glob_sync fs (resolve fs dir +:+ "/**/*.lang")).
  destruct (bool_decide (length files = 0)); [by left|].
  destruct (group_by_language [] files) as [langs|e] eqn:Eg; [|by left].
  apply group_by_language_Ok in Eg. fold (grouped files) in Eg. subst langs.
  right.
  destruct (load_languages fs parseFile (_langs i) (Object_entries (grouped files)))
    as [store [e|]].
  - exists (_client i). by destruct i.
  - destruct (postLoad_keeps_tables (set_langs i store)) as [client ->].
    by exists client.
Qed.

(** X11. Whether it returns or throws, [loadLocalizationsFrom] touches nothing
    but the tables of the languages whose files it found: help text, group
    descriptions and metadata stay, a language that no discovered file is
    named after keeps its table, and no language is lost. *)
Theorem loadLocalizationsFrom_frame (i : Lang) (dir : string) :
  ∃ i',
    (loadLocalizationsFrom fs parseFile (Some i) dir).1 = Some i'
    ∧ _commandInfo i' = _commandInfo i
    ∧ _groupInfo i' = _groupInfo i
    ∧ _meta i' = _meta i
    ∧ (∀ L, Forall (λ f, langNameOf f ≠ Some L)
              (glob_sync fs (resolve fs dir +:+ "/**/*.lang")) →
            _langs i' !! L = _langs i !! L)
    ∧ (∀ L, is_Some (_langs i !! L) → is_Some (_langs i' !! L)).
Proof.
  destruct (loadLocalizationsFrom_state i dir) as [-> | [client ->]].
  { exists i. split_and!; done. }
  eexists. split; [reflexivity|]. cbn [_commandInfo _groupInfo _meta _langs
    set_client set_langs].
  set (files := glob_sync fs (resolve fs dir +:+ "/**/*.lang")).
  destruct (load_languages_frame (_langs i) (Object_entries (grouped files)))
    as [H1 H2].
  split_and!; [done | done | done | | done].
  intros L HL. apply H1.
  rewrite (Object_entries_Permutation (grouped files)).
  intros (f & Hin & Hn)%grouped_keys.
  by apply (proj1 (Forall_forall _ _) HL f Hin).
Qed.
End Frame.

(** ** When a load of strings returns *)

Section Returns.
Variable fs : FileSystem.
Variable parseFile : string → string → result Language.

Lemma group_by_language_names G files langs :
  group_by_language G files = Ok langs →
  Forall (λ f, ∀ n, langNameOf f = Some n → inherited n = false) files.
Proof.
  revert G. induction files as [|f files IH]; intros G; [constructor|].
  cbn [group_by_language].
  destruct (langNameOf f) as [n|] eqn:E.
  - destruct (inherited n) eqn:Ei; [done|].
    intros H. constructor; [|by eapply IH].
    intros n' Hn'. by simplify_eq.
  - intros H. constructor; [intros n' Hn'; congruence | by eapply IH].
Qed.

(** A file that [load_file] takes without an exception is read and
    parsed. *)
Lemma load_file_None n store f :
  (load_file fs parseFile n store f).2 = None →
  langNameOf f = Some n →
  ∃ text fragment, text_of fs f = Ok text ∧ parseFile n text = Ok fragment.
Proof.
  intros H Hn. unfold load_file in H.
  rewrite (langNameOf_test f n Hn) in H. cbn [negb] in H.
  destruct (text_of fs f) as [text|e]; [|done].
  destruct (parseFile n text) as [fragment|e] eqn:E; [|done].
  eauto.
Qed.

Lemma load_files_None n store files :
  (load_files fs parseFile n store files).2 = None →
  Forall (λ f, langNameOf f = Some n →
               ∃ text fragment,
                 text_of fs f = Ok text ∧ parseFile n text = Ok fragment) files.
Proof.
  revert store. induction files as [|f files IH]; intros store; [constructor|].
  cbn [load_files].
  pose proof (load_file_None n store f) as Hf.
  destruct (load_file fs parseFile n store f) as [store1 [e|]]; [done|].
  intros H. constructor; [by apply Hf | by eapply IH].
Qed.

Lemma load_languages_None store G :
  (load_languages fs parseFile store G).2 = None →
  Forall (λ g, Forall (λ f, langNameOf f = Some g.1 →
                            ∃ text fragment,
                              text_of fs f = Ok text
                              ∧ parseFile g.1 text = Ok fragment) g.2) G.
Proof.
  revert store. induction G as [|[n fl] G IH]; intros store; [constructor|].
  cbn [load_languages].
  pose proof (load_files_None n store fl) as Hfl.
  destruct (load_files fs parseFile n store fl) as [store1 [e|]]; [done|].
  intros H. constructor; [by apply Hfl | by eapply IH].
Qed.

Lemma files_of_member n G f :
  f ∈ files_of n G → (n, files_of n G) ∈ G.
Proof.
  induction G as [|[n' fl] G IH]; [by intros ?%elem_of_nil|].
  cbn [files_of]. destruct (decide (n' = n)) as [->|Hne].
  - rewrite bool_decide_eq_true_2 by done. intros _. apply list_elem_of_here.
  - rewrite bool_decide_eq_false_2 by done. intros H.
    apply list_elem_of_further. by apply IH.
Qed.

(** X23. Over a directory that holds files, [loadLocalizationsFrom] returns
    without an exception exactly when every discovered file is loadable:
    one file that is not read or not parsed, or whose language is a name
    inherited from [Object.prototype], makes the whole call throw. *)
Theorem loadLocalizationsFrom_returns_iff (i : Lang) (dir : string) :
  glob_sync fs (resolve fs dir +:+ "/**/*.lang") ≠ [] →
  (loadLocalizationsFrom fs parseFile (Some i) dir).2 = None
  ↔ Forall (λ f, loadable fs parseFile f = true)
      (glob_sync fs (resolve fs dir +:+ "/**/*.lang")).
Proof.
  intros Hne. split.
  - unfold loadLocalizationsFrom.
    set (files := glob_sync fs (resolve fs dir +:+ "/**/*.lang")) in *.
    rewrite bool_decide_eq_false_2 by (by destruct files).
    destruct (group_by_language [] files) as [langs|e] eqn:Eg; [|done].
    pose proof (group_by_language_names _ _ _ Eg) as Hnames.
    apply group_by_language_Ok in Eg. fold (grouped files) in Eg. subst langs.
    pose proof (load_languages_None (_langs i) (Object_entries (grouped files)))
      as Hload.
    destruct (load_languages fs parseFile (_langs i)
                (Object_entries (grouped files))) as [store [e|]]; [done|].
    intros _. specialize (Hload eq_refl).
    apply Forall_forall. intros f Hf. unfold loadable.
    destruct (langNameOf f) as [n|] eqn:En; [|done].
    rewrite (proj1 (Forall_forall _ _) Hnames f Hf n En). cbn [negb andb].
    assert (f ∈ files_of n (grouped files)) as Hin.
    { rewrite files_of_group. by apply list_elem_of_filter. }
    apply files_of_member in Hin as Hg.
    set (g := (n, files_of n (grouped files))) in Hg.
    rewrite <- (Object_entries_Permutation (grouped files)) in Hg.
    pose proof (proj1 (Forall_forall _ _) Hload _ Hg) as Hfl.
    unfold g in Hfl. cbn [fst snd] in Hfl.
    destruct (proj1 (Forall_forall _ _) Hfl f Hin En)
      as (text & fragment & -> & Hp).
    simpl. by rewrite Hp.
  - intros Hall.
    by destruct (loadLocalizationsFrom_returns fs parseFile i dir Hne Hall)
      as (st' & _ & ->).
Qed.
End Returns.

Lemma loadLocalizationsFrom_returns_iff_witness :
  ∃ e,
    (loadLocalizationsFrom
       (disk [text_file "/loc/en_us.lang" "HELLO=Hello";
              text_file "/loc/fr.lang" "Salut"])
       one_line_parser (Some empty_instance) "/loc").2 = Some e.
Proof.
  destruct (loadLocalizationsFrom
              (disk [text_file "/loc/en_us.lang" "HELLO=Hello";
                     text_file "/loc/fr.lang" "Salut"])
              one_line_parser (Some empty_instance) "/loc").2 as [e|] eqn:E;
    [by exists e|].
  apply (loadLocalizationsFrom_returns_iff
           (disk [text_file "/loc/en_us.lang" "HELLO=Hello";
                  text_file "/loc/fr.lang" "Salut"])
           one_line_parser empty_instance "/loc") in E; [|discriminate].
  apply Forall_cons in E as [_ E]. apply Forall_cons in E as [E _].
  vm_compute in E. discriminate.
Defined.

(** ** A second language enables [setlang] *)

Lemma two_elements_size (X : gset string) (a b : string) :
  a ∈ X → b ∈ X → a ≠ b → 1 < size X.
Proof.
  intros Ha Hb Hab.
  assert (size ({[a; b]} : gset string) ≤ size X) as Hle.
  { apply subseteq_size. intros x [->%elem_of_singleton | ->%elem_of_singleton]%elem_of_union; done. }
  rewrite size_union, !size_singleton in Hle; [lia|].
  intros x ->%elem_of_singleton ?%elem_of_singleton. done.
Qed.

Lemma fragments_of_file fs parseFile L files f :
  f ∈ files → langNameOf f = Some L → fragments fs parseFile L files ≠ [].
Proof.
  intros Hin Hn E. unfold fragments in E. apply fmap_nil_inv in E.
  assert (f ∈ filter (λ f, langNameOf f = Some L) files) as H
    by (by apply list_elem_of_filter).
  rewrite E in H. by apply elem_of_nil in H.
Qed.

(** X12. When the discovered files are loadable and belong to two languages at
    least, [loadLocalizationsFrom] returns and does not leave the [setlang]
    command disabled, unless it is among the disabled base commands. *)
Theorem second_language_enables_setlang (fs : FileSystem)
    (parseFile : string → string → result Language) (i : Lang)
    (dir L1 L2 f1 f2 : string) :
  Forall (λ f, loadable fs parseFile f = true)
    (glob_sync fs (resolve fs dir +:+ "/**/*.lang")) →
  f1 ∈ glob_sync fs (resolve fs dir +:+ "/**/*.lang") →
  f2 ∈ glob_sync fs (resolve fs dir +:+ "/**/*.lang") →
  langNameOf f1 = Some L1 →
  langNameOf f2 = Some L2 →
  L1 ≠ L2 →
  "setlang" ∉ disableBase (_client i) →
  ∃ i',
    loadLocalizationsFrom fs parseFile (Some i) dir = (Some i', None)
    ∧ setlang_disabled (_client i') ≠ Some true
    ∧ (is_Some (setlang_disabled (_client i)) →
       setlang_disabled (_client i') = Some false).
Proof.
  intros Hall Hf1 Hf2 Hn1 Hn2 Hne Hout.
  set (files := glob_sync fs (resolve fs dir +:+ "/**/*.lang")) in *.
  assert (files ≠ []) as Hfiles.
  { intros E. rewrite E in Hf1. by apply elem_of_nil in Hf1. }
  destruct (loadLocalizationsFrom_table fs parseFile i dir L1 Hall
              (fragments_of_file fs parseFile L1 files f1 Hf1 Hn1))
    as (i1 & l1 & Hload1 & Hl1 & _).
  destruct (loadLocalizationsFrom_table fs parseFile i dir L2 Hall
              (fragments_of_file fs parseFile L2 files f2 Hf2 Hn2))
    as (i2 & l2 & Hload2 & Hl2 & _).
  rewrite Hload1 in Hload2. injection Hload2 as <-.
  pose proof Hload1 as Hload.
  unfold loadLocalizationsFrom in Hload1. fold files in Hload1.
  rewrite bool_decide_eq_false_2 in Hload1 by (by destruct files).
  destruct (group_by_language [] files) as [langs|e]; [|done].
  destruct (load_languages fs parseFile (_langs i) (Object_entries langs))
    as [store [e|]]; [done|].
  set (j := set_langs i store) in Hload1.
  destruct (langNames_elem j L1) as (names & Hn & HL1).
  destruct (langNames_elem j L2) as (names' & Hn' & HL2).
  rewrite Hn in Hn'. injection Hn' as <-.
  destruct (postLoad_cases j names Hn) as (client & Hp & _ & Hen & Hsame).
  rewrite Hp in Hload1. injection Hload1 as <-. simpl in Hl1, Hl2.
  assert (1 < size names) as Hsize.
  { apply (two_elements_size names L1 L2); [| | done].
    - apply HL1. left. unfold j. simpl. by rewrite Hl1.
    - apply HL2. left. unfold j. simpl. by rewrite Hl2. }
  exists (set_client j client). split; [exact Hload|]. simpl.
  destruct (setlang_disabled (_client i)) as [[|]|] eqn:Hd.
  - rewrite Hen by done. split; [done | done].
  - rewrite Hsame by (right; right; simpl; congruence). simpl. rewrite Hd.
    split; [done | done].
  - rewrite Hsame by (right; right; simpl; congruence). simpl. rewrite Hd.
    split; [done | by intros [? ?]].
Qed.

Lemma second_language_enables_setlang_witness :
  ∃ i',
    loadLocalizationsFrom (disk hello_files) one_line_parser
      (Some (set_client empty_instance
               {| disableBase := []; setlang_disabled := Some true |}))
      "/loc" = (Some i', None)
    ∧ setlang_disabled (_client i') = Some false.
Proof.
  destruct (second_language_enables_setlang (disk hello_files) one_line_parser
              (set_client empty_instance
                 {| disableBase := []; setlang_disabled := Some true |})
              "/loc" "en_us" "fr" "/loc/en_us.lang" "/loc/fr.lang")
    as (i' & H1 & _ & H2).
  - repeat (constructor; [vm_compute; reflexivity|]). constructor.
  - apply list_elem_of_here.
  - apply list_elem_of_further, list_elem_of_here.
  - vm_compute. reflexivity.
  - vm_compute. reflexivity.
  - discriminate.
  - simpl. by intros ?%elem_of_nil.
  - exists i'. split; [exact H1|]. apply H2. by eexists.
Defined.

(** ** Before construction *)

(** X14. Before [createInstance], every static method of the current revision
    throws the same [Error], whatever its arguments: the check of the
    instance comes before any check of an argument. *)
Theorem methods_need_instance newRegExp newFunction (fs : FileSystem)
    (parseFile : string → string → result Language)
    (lang key group dir : string)
    (data : option TemplateData) (command : CommandArg) :
  res newRegExp newFunction None lang key data = not_created
  ∧ getCommandInfo None command lang = not_created
  ∧ getGroupInfo None group lang = not_created
  ∧ langs None = not_created
  ∧ langNames None = not_created
  ∧ loadLocalizationsFrom fs parseFile None dir = (None, Some not_created_error)
  ∧ loadCommandLocalizationsFrom fs None dir = not_created
  ∧ loadGroupLocalizationsFrom fs None dir = not_created.
Proof. by split_and!. Qed.

(** ** Directories without files *)

(** X15. In a directory where the scans find nothing, [loadLocalizationsFrom]
    throws an [Error] that names the resolved directory, while the two help
    loaders return normally and leave the state as it is. *)
Theorem empty_directory (fs : FileSystem)
    (parseFile : string → string → result Language) (i : Lang) (dir : string) :
  glob_sync fs (resolve fs dir +:+ "/**/*.lang") = [] →
  glob_sync fs (resolve fs dir +:+ "/**/*.lang.json") = [] →
  glob_sync fs (resolve fs dir +:+ "/**/commandgroups.lang.json") = [] →
  loadLocalizationsFrom fs parseFile (Some i) dir =
    (Some i,
     Some (Error ("Failed to find any localization files in: "
                  +:+ resolve fs dir)))
  ∧ loadCommandLocalizationsFrom fs (Some i) dir = Ok (Some i)
  ∧ loadGroupLocalizationsFrom fs (Some i) dir = Ok (Some i).
Proof.
  intros H1 H2 H3.
  unfold loadLocalizationsFrom, loadCommandLocalizationsFrom,
    loadGroupLocalizationsFrom. simpl. by rewrite H1, H2, H3.
Qed.

Lemma empty_directory_witness :
  loadLocalizationsFrom (disk []) one_line_parser (Some empty_instance) "/none"
  = (Some empty_instance,
     Some (Error "Failed to find any localization files in: /none")).
Proof.
  apply (empty_directory (disk []) one_line_parser empty_instance "/none");
    reflexivity.
Defined.

(** ** The reserved file *)

Lemma exec_from_later m r pre s pv :
  (∀ pv', is_Some (here m r pv' s)) →
  is_Some (exec_from m r pv (pre +:+ s)).
Proof.
  intros Hs. revert pv. induction pre as [|c pre IH]; intros pv.
  - rewrite app_empty_l. destruct (Hs pv) as [fd Hfd].
    rewrite (exec_from_found _ _ _ _ _ Hfd). eauto.
  - rewrite app_String. cbn [exec_from].
    destruct (here m r pv (String c (pre +:+ s))); [eauto | apply IH].
Qed.

Lemma reserved_name_test d :
  test false (Cat [Lit "commandgroups.lang.json"; Eol])
    (d +:+ "commandgroups.lang.json") = true.
Proof.
  unfold test, exec. apply bool_decide_eq_true. apply exec_from_later.
  intros pv.
  destruct (matches_Lit_intro false "commandgroups.lang.json" pv "" ∅) as [pv' H].
  eapply here_complete. unfold Cat. cbn [foldr].
  eapply matches_Seq; [exact H|].
  eapply matches_Seq; [by apply matches_Eol | constructor].
Qed.

(** X8. A discovered file whose path ends in [commandgroups.lang.json] is never
    read as command help, whatever it holds: the help table is the one that
    the other discovered files give. *)
Theorem reserved_file_is_not_help (fs : FileSystem) (i : Lang)
    (dir d : string) (pre post : list string) :
  glob_sync fs (resolve fs dir +:+ "/**/*.lang.json")
    = pre ++ (d +:+ "commandgroups.lang.json") :: post →
  ∃ client,
    loadCommandLocalizationsFrom fs (Some i) dir =
      Ok (Some (set_client
                  (set_commandInfo i
                     (foldl (load_command_file fs)
                        (foldl (load_command_file fs) (_commandInfo i) pre)
                        post))
                  client)).
Proof.
  intros Hglob. unfold loadCommandLocalizationsFrom. simpl. rewrite Hglob.
  rewrite bool_decide_eq_false_2 by (rewrite length_app; simpl; lia).
  rewrite foldl_app. cbn [foldl].
  unfold load_command_file at 2. rewrite reserved_name_test.
  apply postLoad_keeps_tables.
Qed.

Lemma reserved_file_is_not_help_witness :
  ∃ client,
    loadCommandLocalizationsFrom
      (disk [ {| path := "/cmds/commandgroups.lang.json"; content := "";
                 as_commands := inr [("ping", [("fr", help_fr)])];
                 as_groups := inr [] |} ])
      (Some empty_instance) "/cmds"
    = Ok (Some (set_client (set_commandInfo empty_instance ∅) client)).
Proof.
  apply (reserved_file_is_not_help
           (disk [ {| path := "/cmds/commandgroups.lang.json"; content := "";
                      as_commands := inr [("ping", [("fr", help_fr)])];
                      as_groups := inr [] |} ])
           empty_instance "/cmds" "/cmds/" [] []).
  reflexivity.
Defined.

(** ** Group descriptions *)

Lemma assignNestedValue_get {V} (obj : gmap string (gmap string V)) a b v a' b' :
  getNestedValue (assignNestedValue obj a b v) a' b' =
    if bool_decide (a = a' ∧ b = b') then Some v else getNestedValue obj a' b'.
Proof.
  unfold getNestedValue, assignNestedValue.
  destruct (decide (a = a')) as [<-|Ha].
  - rewrite lookup_insert_eq. simpl.
    destruct (decide (b = b')) as [<-|Hb].
    + rewrite bool_decide_eq_true_2 by done. by rewrite lookup_insert_eq.
    + rewrite bool_decide_eq_false_2 by (by intros [_ ?]).
      rewrite lookup_insert_ne by done. by destruct (obj !! a).
  - rewrite bool_decide_eq_false_2 by (by intros [? _]).
    by rewrite lookup_insert_ne.
Qed.

Lemma assign_languages_get gi g0 (ls : list (string * string)) g l :
  getNestedValue (foldl (λ gi l, assignNestedValue gi g0 l.1 l.2) gi ls) g l =
    foldl (λ _ d, Some d) (getNestedValue gi g l)
      (if bool_decide (g0 = g) then (filter (λ e, e.1 = l) ls).*2 else []).
Proof.
  revert gi. induction ls as [|[l0 d] ls IH]; intros gi.
  - by destruct (bool_decide (g0 = g)).
  - cbn [foldl]. rewrite IH, assignNestedValue_get. cbn [fst snd].
    destruct (decide (g0 = g)) as [->|Hg].
    + rewrite (bool_decide_eq_true_2 (g = g)) by done.
      rewrite filter_cons. cbn [fst].
      destruct (decide (l0 = l)) as [->|Hl].
      * by rewrite (bool_decide_eq_true_2 (g = g ∧ l = l)).
      * by rewrite bool_decide_eq_false_2 by (by intros [_ ?]).
    + rewrite (bool_decide_eq_false_2 (g0 = g)) by done.
      by rewrite bool_decide_eq_false_2 by (by intros [? _]).
Qed.

Lemma assign_groups_get gi (groupInfo : list (string * list (string * string))) g l :
  getNestedValue
    (foldl (λ gi entry, foldl (λ gi l, assignNestedValue gi entry.1 l.1 l.2) gi entry.2)
       gi groupInfo) g l =
    foldl (λ _ d, Some d) (getNestedValue gi g l) (group_entries groupInfo g l).
Proof.
  unfold group_entries. revert gi.
  induction groupInfo as [|entry gs IH]; intros gi; [done|].
  cbn [foldl]. by rewrite IH, assign_languages_get, bind_cons, foldl_app.
Qed.

(** X16. After [loadGroupLocalizationsFrom], [getGroupInfo] returns for a group
    and a language the last description that the reserved file gives for
    them, when that description is not empty. *)
Theorem loaded_group_description (fs : FileSystem) (i : Lang)
    (dir filePath group lang d : string) (others : list string)
    (groupInfo : list (string * list (string * string))) (pre : list string) :
  glob_sync fs (resolve fs dir +:+ "/**/commandgroups.lang.json")
    = filePath :: others →
  filePath ≠ "" →
  require_groups fs filePath = inr groupInfo →
  group_entries groupInfo group lang = pre ++ [d] →
  group ≠ "" → d ≠ "" →
  ∃ st',
    loadGroupLocalizationsFrom fs (Some i) dir = Ok st'
    ∧ getGroupInfo st' group lang = Ok d.
Proof.
  intros Hg Hp Hr He Hgroup Hd.
  unfold loadGroupLocalizationsFrom. simpl. rewrite Hg, Hr.
  destruct filePath; [done|]. eexists. split; [reflexivity|].
  unfold getGroupInfo. simpl. rewrite bool_decide_eq_false_2 by done.
  rewrite assign_groups_get, He, foldl_app. simpl. by destruct d.
Qed.

Lemma loaded_group_description_witness :
  ∃ st',
    loadGroupLocalizationsFrom
      (disk [ {| path := "/cmds/commandgroups.lang.json"; content := "";
                 as_commands := inl "";
                 as_groups := inr [("economy", [("fr", "Economie"); ("de", "Wirtschaft")])] |} ])
      (Some empty_instance) "/cmds" = Ok st'
    ∧ getGroupInfo st' "economy" "fr" = Ok "Economie".
Proof.
  apply (loaded_group_description
           (disk [ {| path := "/cmds/commandgroups.lang.json"; content := "";
                      as_commands := inl "";
                      as_groups := inr [("economy", [("fr", "Economie"); ("de", "Wirtschaft")])] |} ])
           empty_instance "/cmds" "/cmds/commandgroups.lang.json" "economy" "fr"
           "Economie" [] [("economy", [("fr", "Economie"); ("de", "Wirtschaft")])] []);
    try reflexivity; discriminate.
Defined.

(** X17. For a group without a description in the language, or with an empty
    one, [getGroupInfo] returns the sentinel [<lang>::group_<group>]; for an
    empty group name it throws. *)
Theorem getGroupInfo_fallback (i : Lang) (group lang : string) :
  (getNestedValue (_groupInfo i) group lang = None
   ∨ getNestedValue (_groupInfo i) group lang = Some "") →
  getGroupInfo (Some i) group lang =
    if bool_decide (group = "") then Throw (Error "A group must be provided")
    else Ok (lang +:+ "::group_" +:+ group).
Proof.
  intros H. unfold getGroupInfo. simpl.
  destruct (bool_decide (group = "")); [done|].
  by destruct H as [-> | ->].
Qed.

(** X18. [loadGroupLocalizationsFrom] changes the group descriptions only: the
    known languages, and with them what [postLoad] decides, are the same
    before and after, also when the file describes groups in a language
    that has neither strings nor help text. *)
Theorem group_load_adds_no_language (fs : FileSystem) (i : Lang) (dir : string)
    (st' : State) :
  loadGroupLocalizationsFrom fs (Some i) dir = Ok st' →
  ∃ groupInfo,
    st' = Some (set_groupInfo i groupInfo)
    ∧ langNames st' = langNames (Some i).
Proof.
  unfold loadGroupLocalizationsFrom. simpl.
  assert (Some i = Some (set_groupInfo i (_groupInfo i))) as Hi
    by (by destruct i).
  destruct (glob_sync fs _) as [|[|c filePath] others].
  - intros [= <-]. exists (_groupInfo i). by rewrite <- Hi.
  - intros [= <-]. exists (_groupInfo i). by rewrite <- Hi.
  - destruct (require_groups fs _) as [stack|groupInfo]; [done|].
    intros [= <-]. eauto.
Qed.

Lemma group_load_adds_no_language_witness :
  ∃ groupInfo,
    loadGroupLocalizationsFrom
      (disk [ {| path := "/cmds/commandgroups.lang.json"; content := "";
                 as_commands := inl "";
                 as_groups := inr [("economy", [("fr", "Economie")])] |} ])
      (Some empty_instance) "/cmds" = Ok (Some (set_groupInfo empty_instance groupInfo))
    ∧ langNames (Some (set_groupInfo empty_instance groupInfo)) = Ok ∅.
Proof.
  destruct (group_load_adds_no_language
              (disk [ {| path := "/cmds/commandgroups.lang.json"; content := "";
                         as_commands := inl "";
                         as_groups := inr [("economy", [("fr", "Economie")])] |} ])
              empty_instance "/cmds"
              (Some (set_groupInfo empty_instance {[ "economy" := {[ "fr" := "Economie" ]} ]})))
    as (groupInfo & H1 & H2); [vm_compute; reflexivity|].
  exists groupInfo. rewrite <- H1. split; [vm_compute; reflexivity|].
  vm_compute. reflexivity.
Defined.

(** ** Loading twice *)

Section MergingTwice.
Context {V : Type}.
Implicit Types (init t : gmap string V) (tables : list (gmap string V)).

Lemma merged_lookup init tables K :
  merged init tables !! K =
    foldl (λ acc t, match t !! K with Some v => Some v | None => acc end)
      (init !! K) tables.
Proof.
  unfold merged. revert init.
  induction tables as [|t tables IH]; intros init; [done|].
  cbn [foldl]. rewrite IH. f_equal. rewrite lookup_union.
  by destruct (t !! K), (init !! K).
Qed.

Lemma last_value_cases (K : string) tables (a : option V) :
  foldl (λ acc t, match t !! K with Some v => Some v | None => acc end) a tables = a
  ∨ ∀ a', foldl (λ acc t, match t !! K with Some v => Some v | None => acc end) a' tables
          = foldl (λ acc t, match t !! K with Some v => Some v | None => acc end) a tables.
Proof.
  revert a. induction tables as [|t tables IH] using rev_ind; intros a.
  - by left.
  - rewrite foldl_app. cbn [foldl].
    destruct (t !! K) as [v|] eqn:E.
    + right. intros a'. rewrite foldl_app. cbn [foldl]. by rewrite E.
    + destruct (IH a) as [H | H]; [by left|].
      right. intros a'. rewrite foldl_app. cbn [foldl]. rewrite E. apply H.
Qed.

(** Merging the same tables a second time changes nothing. *)
Lemma merged_twice init tables :
  merged (merged init tables) tables = merged init tables.
Proof.
  apply map_eq. intros K. rewrite !merged_lookup.
  destruct (last_value_cases K tables (init !! K)) as [H | H].
  - by rewrite !H.
  - by rewrite H.
Qed.
End MergingTwice.

Section Revision1Twice.
Import Revision1.
Variable glob_sync : string → list string.
Variable require : string → exn + gmap string string.
Variable en_us : string.

Lemma merge_tables_any (init : option (gmap string string)) ts :
  foldl merge_table init ts =
    match ts with
    | [] => init
    | _ => Some (merged (default ∅ init) ts)
    end.
Proof. destruct ts; [done|]. by apply merge_tables. Qed.

(** X19. In the earlier revision, [loadLocalizations] run a second time over the
    same files, all of which load, leaves the state that the first run
    left. *)
Theorem loadLocalizations_twice (i : Revision1.Lang) :
  Forall (λ f, ∃ t, require f = inr t) (langFiles glob_sync en_us i) →
  ∃ i',
    loadLocalizations glob_sync require en_us (Some i) = (Some i', None)
    ∧ loadLocalizations glob_sync require en_us (Some i') = (Some i', None).
Proof.
  intros Hall. unfold loadLocalizations.
  set (files := langFiles glob_sync en_us i).
  set (langs1 := (load_files require (Revision1.langs i) files).1).
  assert (∀ ls L, (load_files require ls files).2 = None
                  ∧ (load_files require ls files).1 !! L
                    = foldl merge_table (ls !! L) (tables require L files))
    as Hload by (intros; by apply load_files_lookup_1).
  exists {| client_localeDir := client_localeDir i; langs := langs1 |}.
  split.
  - by rewrite (proj1 (Hload (Revision1.langs i) "")).
  - unfold langFiles. cbn [client_localeDir Revision1.langs].
    fold (langFiles glob_sync en_us i). fold files.
    rewrite (proj1 (Hload langs1 "")). do 3 f_equal.
    apply map_eq. intros L.
    rewrite (proj2 (Hload langs1 L)). unfold langs1.
    rewrite (proj2 (Hload (Revision1.langs i) L)).
    rewrite !merge_tables_any.
    destruct (tables require L files) as [|t ts] eqn:E; [done|].
    exact (f_equal Some (merged_twice (default ∅ (Revision1.langs i !! L)) (t :: ts))).
Qed.
End Revision1Twice.

(** ** Loading the same directory twice *)

Section LoadingTwice.
Variable fs : FileSystem.
Variable parseFile : string → string → result Language.

Lemma load_entries_known L language files :
  Forall (λ f, langNameOf f = Some L) files →
  foldl (load_entry fs parseFile L) (Some language) files =
    Some {| name := name language;
            strings := merged (strings language)
                         (strings <$> (parsed fs parseFile L <$> files)) |}.
Proof.
  intros Hall. revert language.
  induction Hall as [|f files Hf _ IH]; intros language.
  - by destruct language.
  - cbn [foldl]. unfold load_entry at 2.
    rewrite (langNameOf_test _ _ Hf). cbn [negb]. by rewrite IH.
Qed.

Lemma postLoad_twice i client :
  postLoad (Some i) = Ok (Some (set_client i client)) →
  postLoad (Some (set_client i client)) = Ok (Some (set_client i client)).
Proof.
  intros H.
  destruct (langNames_elem i "") as (names & Hn & _).
  destruct (postLoad_cases i names Hn) as (c1 & H1 & Hd & Hen & Hsame).
  rewrite H in H1. injection H1 as ->.
  destruct (postLoad_cases (set_client i c1) names Hn)
    as (c2 & H2 & _ & _ & Hsame2).
  rewrite H2. rewrite Hsame2; [done|]. simpl.
  destruct (decide (1 < size names)) as [Hs|Hs]; [|left; lia].
  destruct (decide ("setlang" ∈ disableBase (_client i))) as [Hin|Hout];
    [right; left; by rewrite Hd|].
  right. right.
  destruct (decide (setlang_disabled (_client i) = Some true)) as [Ht|Ht].
  - rewrite Hen by done. done.
  - rewrite Hsame by (right; by right). done.
Qed.

(** X13. [loadLocalizationsFrom] run a second time over the same directory, with
    the files unchanged and all of them loadable, leaves the state that the
    first run left. *)
Theorem loadLocalizationsFrom_twice (i : Lang) (dir : string) :
  glob_sync fs (resolve fs dir +:+ "/**/*.lang") ≠ [] →
  Forall (λ f, loadable fs parseFile f = true)
    (glob_sync fs (resolve fs dir +:+ "/**/*.lang")) →
  ∃ i',
    loadLocalizationsFrom fs parseFile (Some i) dir = (Some i', None)
    ∧ loadLocalizationsFrom fs parseFile (Some i') dir = (Some i', None).
Proof.
  intros Hne Hall.
  destruct (loadLocalizationsFrom_returns fs parseFile i dir Hne Hall)
    as (st1 & Hp1 & H1).
  set (files := glob_sync fs (resolve fs dir +:+ "/**/*.lang")) in *.
  set (store1 := foldl (λ store g, foldl (merge_file fs parseFile g.1) store g.2)
                   (_langs i) (grouped files)) in *.
  destruct (postLoad_keeps_tables (set_langs i store1)) as [client Hc].
  rewrite Hc in Hp1. injection Hp1 as <-.
  exists (set_client (set_langs i store1) client). split; [exact H1|].
  assert (foldl (λ store g, foldl (merge_file fs parseFile g.1) store g.2)
            store1 (grouped files) = store1) as Hstore.
  { apply map_eq. intros L.
    rewrite merge_groups_lookup by apply grouped_NoDup.
    unfold store1 at 1 2.
    rewrite merge_groups_lookup by apply grouped_NoDup.
    rewrite files_of_group.
    assert (Forall (λ f, langNameOf f = Some L)
              (filter (λ f, langNameOf f = Some L) files)) as HallL.
    { apply Forall_forall. by intros f [? _]%list_elem_of_filter. }
    destruct (filter (λ f, langNameOf f = Some L) files) as [|f fl] eqn:E; [done|].
    destruct (load_entries fs parseFile L (_langs i !! L) (f :: fl) HallL)
      as (language & Hl & Hs); [done|].
    rewrite Hl, (load_entries_known L language (f :: fl) HallL).
    f_equal. destruct language as [n s]. cbn [name strings] in *. f_equal.
    rewrite Hs. apply merged_twice. }
  destruct (loadLocalizationsFrom_returns fs parseFile
              (set_client (set_langs i store1) client) dir Hne Hall)
    as (st2 & Hp2 & H2).
  fold files in Hp2, H2. cbn [_langs set_client set_langs] in Hp2.
  rewrite Hstore in Hp2.
  change (set_langs (set_client (set_langs i store1) client) store1)
    with (set_client (set_langs i store1) client) in Hp2.
  rewrite (postLoad_twice (set_langs i store1) client Hc) in Hp2.
  injection Hp2 as <-. exact H2.
Qed.
End LoadingTwice.

Lemma loadLocalizationsFrom_twice_witness :
  ∃ i',
    loadLocalizationsFrom (disk hello_files) one_line_parser
      (Some empty_instance) "/loc" = (Some i', None)
    ∧ loadLocalizationsFrom (disk hello_files) one_line_parser
        (Some i') "/loc" = (Some i', None).
Proof.
  apply (loadLocalizationsFrom_twice (disk hello_files) one_line_parser
           empty_instance "/loc").
  - discriminate.
  - repeat (constructor; [vm_compute; reflexivity|]). constructor.
Defined.

(** ** The loaders called at startup *)

Section StartupFacts.
Variable fs : FileSystem.
Variable parseFile : string → string → result Language.
Variable en_us : string.
Variable dirs : Directories.

(** Whatever a load of strings does, it leaves an instance, and the
    metadata of that instance are those of before. *)
Lemma loadLocalizationsFrom_meta i dir :
  ∃ i', (loadLocalizationsFrom fs parseFile (Some i) dir).1 = Some i'
        ∧ _meta i' = _meta i.
Proof.
  destruct (loadLocalizationsFrom_state fs parseFile i dir) as [-> | [client ->]];
    eauto.
Qed.

(** X20. Whatever [loadLocalizations] finds, and also when it throws because a
    directory holds no file, it leaves the display name [English] in the
    metadata of [en_us]. *)
Theorem loadLocalizations_names_english (i : Lang) :
  getMetaValue (loadLocalizations fs parseFile en_us dirs (Some i)).1
    "en_us" "name" = Ok (str "English").
Proof.
  unfold loadLocalizations, setMetaValue, instance. cbn [mbind result_bind].
  set (i1 := set_meta i _).
  assert (getNestedValue (_meta i1) "en_us" "name" = Some (str "English")) as H1.
  { unfold i1. simpl. rewrite assignNestedValue_get.
    by rewrite bool_decide_eq_true_2. }
  destruct (loadLocalizationsFrom_meta i1 en_us) as (i2 & E2 & Hm2).
  destruct (loadLocalizationsFrom fs parseFile (Some i1) en_us) as [st2 e2].
  cbn [fst] in E2. subst st2.
  assert (getMetaValue (Some i2) "en_us" "name" = Ok (str "English")) as H2.
  { unfold getMetaValue. simpl. by rewrite Hm2, H1. }
  destruct e2 as [e|]; cbv iota beta; [exact H2|].
  destruct (given (localeDir dirs)) as [d|]; [|exact H2].
  destruct (loadLocalizationsFrom_meta i2 d) as (i3 & E3 & Hm3).
  rewrite E3. unfold getMetaValue. simpl. by rewrite Hm3, Hm2, H1.
Qed.

(** X21. The strings of the client's [localeDir] are merged after the bundled
    ones: when the files of both directories are loadable, then for a key
    that a file of the client defines, the last such file of the language
    decides the value, whatever the bundled files say. *)
Theorem client_strings_override (i : Lang) (d L K v : string)
    (pre post : list string) (langFile text : string) (fragment : Language) :
  glob_sync fs (resolve fs en_us +:+ "/**/*.lang") ≠ [] →
  Forall (λ f, loadable fs parseFile f = true)
    (glob_sync fs (resolve fs en_us +:+ "/**/*.lang")) →
  localeDir dirs = Some d →
  d ≠ "" →
  glob_sync fs (resolve fs d +:+ "/**/*.lang") = pre ++ langFile :: post →
  Forall (λ f, loadable fs parseFile f = true) (pre ++ langFile :: post) →
  langNameOf langFile = Some L →
  text_of fs langFile = Ok text →
  parseFile L text = Ok fragment →
  strings fragment !! K = Some v →
  Forall (λ later, strings later !! K = None) (fragments fs parseFile L post) →
  ∃ i' language,
    loadLocalizations fs parseFile en_us dirs (Some i) = (Some i', None)
    ∧ _langs i' !! L = Some language
    ∧ strings language !! K = Some v.
Proof.
  intros Hbase Hall0 Hd Hne Hglob Hall Hn Ht Hp Hk Hpost.
  unfold loadLocalizations, setMetaValue, instance. cbn [mbind result_bind].
  set (i1 := set_meta i _).
  destruct (loadLocalizationsFrom_store fs parseFile i1 en_us Hbase Hall0)
    as [client ->].
  set (i2 := set_client _ client).
  rewrite Hd. destruct d as [|c d]; [done|]. cbn [given].
  assert (parsed fs parseFile L langFile = fragment) as Hfr.
  { unfold parsed. rewrite Ht. simpl. by rewrite Hp. }
  assert (fragments fs parseFile L (pre ++ langFile :: post)
          = fragments fs parseFile L pre ++ fragment
              :: fragments fs parseFile L post) as Hfrs.
  { by rewrite fragments_app, fragments_cons, Hfr. }
  destruct (loadLocalizationsFrom_table fs parseFile i2 (String c d) L)
    as (i' & language & -> & Hl & Hs).
  { by rewrite Hglob. }
  { rewrite Hglob, Hfrs. by destruct (fragments fs parseFile L pre). }
  exists i', language. split_and!; [done | done |].
  rewrite Hs, Hglob, Hfrs, fmap_app, fmap_cons.
  apply merged_last_wins; [done|]. by apply Forall_fmap.
Qed.

(** X22. When the bundled file of group descriptions does not parse,
    [loadCommandLocalizations] throws at once: the state is left as it was
    and the client's [commandsDir] is not read. *)
Theorem broken_bundled_groups_block_help (i : Lang)
    (filePath stack : string) (others : list string) :
  glob_sync fs (resolve fs en_us +:+ "/**/commandgroups.lang.json")
    = filePath :: others →
  filePath ≠ "" →
  require_groups fs filePath = inl stack →
  loadCommandLocalizations fs en_us dirs (Some i) =
    (Some i,
     Some (Error ("Failed to load group localizations from '"
                  +:+ filePath +:+ ":" +:+ nl +:+ stack))).
Proof.
  intros Hg Hne Hr. unfold loadCommandLocalizations, loadGroupLocalizationsFrom.
  simpl. rewrite Hg, Hr. by destruct filePath.
Qed.
End StartupFacts.

Lemma client_strings_override_witness :
  ∃ i' language,
    loadLocalizations startup_disk one_line_parser "/base/en_us"
      {| localeDir := Some "/my"; commandsDir := None |} (Some empty_instance)
    = (Some i', None)
    ∧ _langs i' !! "en_us" = Some language
    ∧ strings language !! "HELLO" = Some "Howdy".
Proof.
  apply (client_strings_override startup_disk one_line_parser "/base/en_us"
           {| localeDir := Some "/my"; commandsDir := None |}
           empty_instance "/my" "en_us" "HELLO" "Howdy" [] [] "/my/en_us.lang"
           "HELLO=Howdy" (one_line "en_us" "HELLO=Howdy"));
    try discriminate; try (vm_compute; reflexivity).
  - repeat (constructor; [vm_compute; reflexivity|]). constructor.
  - repeat (constructor; [vm_compute; reflexivity|]). constructor.
  - constructor.
Defined.

Lemma broken_bundled_groups_block_help_witness :
  loadCommandLocalizations
    (disk [text_file "/base/en_us/commandgroups.lang.json" "{"])
    "/base/en_us" {| localeDir := None; commandsDir := Some "/cmds" |}
    (Some empty_instance)
  = (Some empty_instance,
     Some (Error ("Failed to load group localizations from '"
                  +:+ "/base/en_us/commandgroups.lang.json" +:+ ":" +:+ nl
                  +:+ "SyntaxError"))).
Proof.
  apply (broken_bundled_groups_block_help
           (disk [text_file "/base/en_us/commandgroups.lang.json" "{"])
           "/base/en_us" {| localeDir := None; commandsDir := Some "/cmds" |}
           empty_instance "/base/en_us/commandgroups.lang.json" "SyntaxError" []);
    [reflexivity | discriminate | reflexivity].
Defined.

(** ** Instances of the properties above *)

Lemma langNameOf_base_name_witness :
  langNameOf ("/locale/plugin" +:+ "/" +:+ "en_us" +:+ ".cmd.lang") = Some "en_us".
Proof.
  apply (langNameOf_base_name "/locale/plugin" "en_us" ".cmd.lang").
  - discriminate.
  - reflexivity.
  - right. exists "cmd". split_and!; [discriminate | reflexivity | reflexivity].
Defined.

Lemma langNameOf_shape_witness :
  ∃ dir tail,
    "/a/b/fr.lang" = dir +:+ "/" +:+ "fr" +:+ tail
    ∧ "fr" ≠ "" ∧ all_chars not_slash_dot "fr" = true ∧ lang_tail tail.
Proof. apply (langNameOf_shape "/a/b/fr.lang" "fr"). vm_compute. reflexivity. Defined.

Lemma matched_block_has_body_witness :
  ∃ functionBody sfx,
    functionBodyOf "{{! x !}}" = Ok functionBody
    ∧ functionBody ≠ ""
    ∧ "{{! x !}}" = "{{!" +:+ functionBody +:+ "!}}" +:+ sfx.
Proof.
  apply (matched_block_has_body "a{{! x !}}b" "{{! x !}}").
  assert (match_all true scriptTemplate "a{{! x !}}b" = ["{{! x !}}"]) as ->
    by (vm_compute; reflexivity).
  apply list_elem_of_here.
Defined.

Lemma help_fields_merge_witness :
  ∃ st' r,
    loadCommandLocalizationsFrom (disk emptied_help_files) (Some empty_instance)
      "/cmds" = Ok st'
    ∧ getCommandInfo st' (a_command ping) "fr" = Ok r
    ∧ field_of Desc r = Some "D".
Proof.
  apply (help_fields_merge (disk emptied_help_files) empty_instance "/cmds" ping
           "fr" Desc "" [{| desc := Some "Salut"; info := None; usage := None |}]
           [{| desc := None; info := None; usage := Some "<prefix>ping" |}]
           {| desc := Some ""; info := None; usage := None |}).
  - vm_compute. reflexivity.
  - reflexivity.
  - constructor; [reflexivity | constructor].
Defined.

Lemma getGroupInfo_fallback_witness :
  getGroupInfo (Some empty_instance) "economy" "fr" = Ok "fr::group_economy".
Proof.
  apply (getGroupInfo_fallback empty_instance "economy" "fr").
  left. reflexivity.
Defined.

Lemma loadLocalizations_twice_witness :
  ∃ i',
    Revision1.loadLocalizations (λ _, ["/l/en_us.lang.json"])
      (λ _, inr {[ "HELLO" := "Hello" ]}) "/base"
      (Some {| Revision1.client_localeDir := None; Revision1.langs := ∅ |})
    = (Some i', None)
    ∧ Revision1.loadLocalizations (λ _, ["/l/en_us.lang.json"])
        (λ _, inr {[ "HELLO" := "Hello" ]}) "/base" (Some i')
      = (Some i', None).
Proof.
  apply (loadLocalizations_twice (λ _, ["/l/en_us.lang.json"])
           (λ _, inr {[ "HELLO" := "Hello" ]}) "/base"
           {| Revision1.client_localeDir := None; Revision1.langs := ∅ |}).
  constructor; [by eexists | constructor].
Defined.
